(** * MorphingParticles: the particle morphing engine

    A shallow embedding of [src/components/MorphingParticles.tsx]:
    the Normalizer ([normalise]), the four Pattern Generators
    ([torusKnot], [halvorsen], [dualHelix], [deJong]) and the Morph
    Controller (the [triggerMorph] callback and the [useFrame] tick).

    JavaScript numbers are IEEE-754 doubles and the position buffers are
    [Float32Array]s.  The program is written once, over an interface
    [Number] of the arithmetic it uses, and the interface has two
    instances:

    - [Float64], the arithmetic the program runs on: Rocq's primitive
      binary64 floats, with the [Float32Array] store as a rounding to
      binary32.  It computes, so the program can be run on concrete inputs.
    - [Exact], the same program over the real numbers, where no operation
      rounds.  Properties the specification states "within floating-point
      tolerance" or "up to floating-point noise" are properties of this
      instance.

    Properties of counting, control flow and state hold for every instance
    and are proved once, for an arbitrary [Number]. *)

From Stdlib Require Import ZArith List Bool Arith Lia.
From Stdlib Require Import Reals Lra.
From Stdlib Require Import Uint63 Floats.PrimFloat Floats.SpecFloat Floats.FloatOps.
Import ListNotations.

Set Implicit Arguments.

(* ================================================================== *)
(** * Part I.  Definitions                                             *)
(* ================================================================== *)

(** ** The arithmetic of the program *)

Declare Scope js_scope.
Delimit Scope js_scope with js.

(** The operations of JavaScript's Number type and of the [Math] object
    that the source uses. *)
Class Number : Type := {
  num : Type;
  (** [a + b], [a - b], [a * b], [a / b], unary [-a] *)
  add : num -> num -> num;
  sub : num -> num -> num;
  mul : num -> num -> num;
  div : num -> num -> num;
  neg : num -> num;
  (** [a < b] and [a >= b] *)
  ltb : num -> num -> bool;
  geb : num -> num -> bool;
  (** [Math.min(a, b)], [Math.max(a, b)] *)
  Math_min : num -> num -> num;
  Math_max : num -> num -> num;
  (** [Math.sin], [Math.cos], [Math.pow], [Math.PI], [Math.floor] *)
  Math_sin : num -> num;
  Math_cos : num -> num;
  Math_pow : num -> num -> num;
  Math_PI : num;
  Math_floor : num -> num;
  (** truthiness of a number, as tested by [v || d] *)
  truthy : num -> bool;
  (** an integer-valued loop counter or length used as a number *)
  of_nat : nat -> num;
  (** the array index a number denotes as a property key of an array:
      [Some k] when it is the non-negative integer [k] *)
  array_index : num -> option nat;
  (** the value of arithmetic on [undefined] *)
  NaN : num;
  (** the value a [Float32Array] holds after a store of [v] *)
  Math_fround : num -> num
}.

Notation "a + b" := (add a b) : js_scope.
Notation "a - b" := (sub a b) : js_scope.
Notation "a * b" := (mul a b) : js_scope.
Notation "a / b" := (div a b) : js_scope.
Notation "- a" := (neg a) : js_scope.
Notation "a <? b" := (ltb a b) : js_scope.
Notation "a >=? b" := (geb a b) (at level 70) : js_scope.

(** A decimal literal [m / 10^k], e.g. [0.03] is [dec 3 2].  A correctly
    rounded quotient of two exactly represented integers is the double
    nearest to the decimal, which is what the literal denotes. *)
Definition dec {N : Number} (m k : nat) : num :=
  (of_nat m / of_nat (10 ^ k))%js.

(** *** The IEEE-754 instance *)

Module F64.

(** [Math.sin], [Math.cos] and [Math.pow] are implementation-approximated
    in ECMAScript: the host supplies them. *)
Record MathLib : Type := {
  lib_sin : float -> float;
  lib_cos : float -> float;
  lib_pow : float -> float -> float
}.

Definition of_Z (z : Z) : float :=
  match z with
  | Z0 => PrimFloat.zero
  | Zpos _ => PrimFloat.of_uint63 (Uint63.of_Z z)
  | Zneg p => PrimFloat.opp (PrimFloat.of_uint63 (Uint63.of_Z (Zpos p)))
  end.

Definition of_nat (n : nat) : float := of_Z (Z.of_nat n).

(** [Math.min]: NaN if either argument is NaN; [-0] is below [+0]. *)
Definition min (a b : float) : float :=
  if PrimFloat.is_nan a || PrimFloat.is_nan b then PrimFloat.nan
  else if PrimFloat.ltb a b then a
  else if PrimFloat.ltb b a then b
  else match PrimFloat.classify a with FloatClass.NZero => a | _ => b end.

(** [Math.max]: NaN if either argument is NaN; [+0] is above [-0]. *)
Definition max (a b : float) : float :=
  if PrimFloat.is_nan a || PrimFloat.is_nan b then PrimFloat.nan
  else if PrimFloat.ltb b a then a
  else if PrimFloat.ltb a b then b
  else match PrimFloat.classify a with FloatClass.PZero => a | _ => b end.

(** [Math.floor]: the largest integer not above [v]; zeros, infinities
    and NaN are returned as they are. *)
Definition floor (v : float) : float :=
  match Prim2SF v with
  | S754_finite s m e =>
      if (0 <=? e)%Z then v
      else
        let q := Z.shiftr (Zpos m) (- e) in
        let exact := (Z.shiftl q (- e) =? Zpos m)%Z in
        if s then (if exact then v else of_Z (- (q + 1)))
        else (if (q =? 0)%Z then PrimFloat.zero else of_Z q)
  | _ => v
  end.

(** The integer a float denotes, when it is a non-negative integer. *)
Definition array_index (v : float) : option nat :=
  match Prim2SF v with
  | S754_zero _ => Some 0%nat
  | S754_finite false m e =>
      if (0 <=? e)%Z then Some (Z.to_nat (Z.shiftl (Zpos m) e))
      else
        let q := Z.shiftr (Zpos m) (- e) in
        if (Z.shiftl q (- e) =? Zpos m)%Z then Some (Z.to_nat q) else None
  | _ => None
  end.

(** [Math.fround]: round to the nearest binary32 value, ties to even
    (precision 24, maximal exponent 128); the conversion a [Float32Array]
    applies on every store. *)
Definition fround (v : float) : float :=
  match Prim2SF v with
  | S754_finite s m e =>
      SF2Prim (binary_normalize 24 128 (cond_Zopp s (Zpos m)) e s)
  | _ => v
  end.

Definition truthy (v : float) : bool :=
  negb (PrimFloat.is_nan v || PrimFloat.is_zero v).

Definition PI : float := 0x1.921fb54442d18p+1%float.

End F64.

Definition Float64 (M : F64.MathLib) : Number := {|
  num := float;
  add := PrimFloat.add;
  sub := PrimFloat.sub;
  mul := PrimFloat.mul;
  div := PrimFloat.div;
  neg := PrimFloat.opp;
  ltb := PrimFloat.ltb;
  geb := fun a b => PrimFloat.leb b a;
  Math_min := F64.min;
  Math_max := F64.max;
  Math_sin := F64.lib_sin M;
  Math_cos := F64.lib_cos M;
  Math_pow := F64.lib_pow M;
  Math_PI := F64.PI;
  Math_floor := F64.floor;
  truthy := F64.truthy;
  of_nat := F64.of_nat;
  array_index := F64.array_index;
  NaN := PrimFloat.nan;
  Math_fround := F64.fround
|}.

(** *** The exact instance *)

Module Real.

Definition ltb (a b : R) : bool := if Rlt_dec a b then true else false.
Definition geb (a b : R) : bool := if Rle_dec b a then true else false.
Definition truthy (a : R) : bool := if Req_dec_T a 0 then false else true.
Definition floor (a : R) : R := IZR (Int_part a).
Definition array_index (a : R) : option nat :=
  if Req_dec_T a (IZR (Int_part a)) then
    if Rle_dec 0 a then Some (Z.to_nat (Int_part a)) else None
  else None.

End Real.

(** Over the reals nothing rounds, so a [Float32Array] store keeps the
    value.  The reals have no NaN: [NaN] is only produced by a load
    outside an array, and every statement about this instance fixes the
    array lengths so that no such load occurs.  [Rpower x y] is [x^y]
    for [0 < x], the only case in which the program calls [Math.pow]. *)
Definition Exact : Number := {|
  num := R;
  add := Rplus;
  sub := Rminus;
  mul := Rmult;
  div := Rdiv;
  neg := Ropp;
  ltb := Real.ltb;
  geb := Real.geb;
  Math_min := Rmin;
  Math_max := Rmax;
  Math_sin := sin;
  Math_cos := cos;
  Math_pow := Rpower;
  Math_PI := PI;
  Math_floor := Real.floor;
  truthy := Real.truthy;
  of_nat := INR;
  array_index := Real.array_index;
  NaN := 0%R;
  Math_fround := fun v => v
|}.

(** ** Exceptions *)

Inductive JSError : Type :=
| TypeError.

(** The outcome of running a function body: it returns, it throws, or the
    fuel given to a [while] loop of the model ran out. *)
Inductive completion (A : Type) : Type :=
| Normal (a : A)
| Throw (e : JSError)
| OutOfFuel.

Arguments Throw {A} e.
Arguments OutOfFuel {A}.

Definition bind {A B : Type} (c : completion A) (k : A -> completion B)
  : completion B :=
  match c with
  | Normal a => k a
  | Throw e => Throw e
  | OutOfFuel => OutOfFuel
  end.

Notation "x <- c ;; k" := (bind c (fun x => k))
  (at level 61, c at next level, right associativity).

(** A [for (let i = 0; i < bound; i++)] loop whose body may throw and may
    [break]: the body maps the state to a new state and a break flag. *)
Fixpoint for_range {S : Type} (indices : list nat)
  (body : nat -> S -> completion (S * bool)) (s : S) : completion S :=
  match indices with
  | [] => Normal s
  | i :: rest =>
      r <- body i s ;;
      if snd r then Normal (fst r) else for_range rest body (fst r)
  end.

Definition for_loop {S : Type} (bound : nat)
  (body : nat -> S -> completion (S * bool)) (s : S) : completion S :=
  for_range (seq 0 bound) body s.

(** A loop body that neither throws nor breaks. *)
Definition plain {S : Type} (f : nat -> S -> S) (i : nat) (s : S)
  : completion (S * bool) :=
  Normal (f i s, false).

(** ** The parts of three.js the source uses

    [THREE.Vector3] and [THREE.Box3] are library code; they are modelled
    after the library's documented behaviour.  Vectors are values here, so
    [clone] is the identity.  three.js represents the empty box as
    [min = +Infinity], [max = -Infinity]; expanding it by a point [p]
    gives [min = max = p], because [Math.min(+Infinity, v)] and
    [Math.max(-Infinity, v)] are [v] for every [v].  The model keeps the
    empty box as a constructor of its own and starts from the first point,
    so that it does not need infinities. *)

Module THREE.
Section WithNumber.
Context {N : Number}.
Local Open Scope js_scope.

Record Vector3 : Type := mkVector3 { x : num; y : num; z : num }.

(** [new THREE.Vector3()] *)
Definition zero3 : Vector3 := mkVector3 (of_nat 0) (of_nat 0) (of_nat 0).

(** [a.sub(b)], [a.multiplyScalar(s)], [a.addVectors(b, c)],
    [a.min(b)], [a.max(b)], [a.toArray()] *)
Definition sub3 (a b : Vector3) : Vector3 :=
  mkVector3 (x a - x b) (y a - y b) (z a - z b).
Definition multiplyScalar (a : Vector3) (s : num) : Vector3 :=
  mkVector3 (x a * s) (y a * s) (z a * s).
Definition addVectors (a b : Vector3) : Vector3 :=
  mkVector3 (x a + x b) (y a + y b) (z a + z b).
Definition min3 (a b : Vector3) : Vector3 :=
  mkVector3 (Math_min (x a) (x b)) (Math_min (y a) (y b)) (Math_min (z a) (z b)).
Definition max3 (a b : Vector3) : Vector3 :=
  mkVector3 (Math_max (x a) (x b)) (Math_max (y a) (y b)) (Math_max (z a) (z b)).
Definition toArray (a : Vector3) : list num := [x a; y a; z a].

Inductive Box3 : Type :=
| EmptyBox
| Box (min max : Vector3).

(** [box.expandByPoint(p)]: [min.min(p); max.max(p)] *)
Definition expandByPoint (b : Box3) (p : Vector3) : Box3 :=
  match b with
  | EmptyBox => Box p p
  | Box lo hi => Box (min3 lo p) (max3 hi p)
  end.

(** [new THREE.Box3().setFromPoints(points)]: [makeEmpty], then
    [expandByPoint] for each point in order. *)
Definition setFromPoints (points : list Vector3) : Box3 :=
  fold_left expandByPoint points EmptyBox.

(** [box.isEmpty()]: [max.x < min.x || max.y < min.y || max.z < min.z] *)
Definition isEmpty (b : Box3) : bool :=
  match b with
  | EmptyBox => true
  | Box lo hi => (x hi <? x lo) || (y hi <? y lo) || (z hi <? z lo)
  end.

(** [box.getSize(target)] *)
Definition getSize (b : Box3) : Vector3 :=
  match b with
  | EmptyBox => zero3
  | Box lo hi => if isEmpty b then zero3 else sub3 hi lo
  end.

(** [box.getCenter(target)] *)
Definition getCenter (b : Box3) : Vector3 :=
  match b with
  | EmptyBox => zero3
  | Box lo hi =>
      if isEmpty b then zero3 else multiplyScalar (addVectors lo hi) (dec 5 1)
  end.

End WithNumber.
End THREE.

(** ** Geometry generators *)

Section Generators.
Context {N : Number}.
Local Open Scope js_scope.

Definition PARTICLE_COUNT : nat := 15 * 1000.
Definition SPARK_COUNT : nat := 2 * 1000.

(** [Math.max(...v.toArray())] for the three components of a vector *)
Definition Math_max_spread (v : THREE.Vector3) : num :=
  Math_max (Math_max (THREE.x v) (THREE.y v)) (THREE.z v).

(** [v || d] on numbers *)
Definition or_default (v d : num) : num := if truthy v then v else d.

Definition normalise (points : list THREE.Vector3) (size : num) : list THREE.Vector3 :=
  match points with
  | [] => []
  | _ :: _ =>
      let box := THREE.setFromPoints points in
      let maxDim := or_default (Math_max_spread (THREE.getSize box)) (of_nat 1) in
      let centre := THREE.getCenter box in
      map (fun p => THREE.multiplyScalar (THREE.sub3 p centre) (size / maxDim))
          points
  end.

(** The vertices of [new THREE.TorusKnotGeometry(10, 3, 200, 16, 2, 3)],
    in the order of [geometry.attributes.position]: library data, a
    parameter of the model. *)
Variable TorusKnotGeometry_position : list THREE.Vector3.

(** [Math.random] as seen by one generator call: its [k]-th draw. *)
Definition RandomSource : Type := nat -> num.

Definition torusKnot (n : nat) : completion (list THREE.Vector3) :=
  let points := TorusKnotGeometry_position in
  result <- for_loop n
    (fun i result =>
       match nth_error points (i mod length points) with
       | Some p => Normal (result ++ [p], false)
       | None => Throw TypeError
       end) [] ;;
  Normal (normalise result (of_nat 50)).

(** The state of the integration loop of [halvorsen]. *)
Record HalvorsenState : Type := mkHalvorsen {
  hx : num; hy : num; hz : num; hpts : list THREE.Vector3
}.

Definition halvorsen_body (n : nat) (i : nat) (s : HalvorsenState)
  : HalvorsenState * bool :=
  let a := dec 189 2 in
  let dt := dec 5 3 in
  let four := of_nat 4 in
  let '(x, y, z) := (hx s, hy s, hz s) in
  let dx := - a * x - four * y - four * z - y * y in
  let dy := - a * y - four * z - four * x - z * z in
  let dz := - a * z - four * x - four * y - x * x in
  let x := x + dx * dt in
  let y := y + dy * dt in
  let z := z + dz * dt in
  let pts :=
    if (200 <? i)%nat && (i mod 25 =? 0)%nat
    then hpts s ++ [THREE.mkVector3 x y z] else hpts s in
  (mkHalvorsen x y z pts, (n <=? length pts)%nat).

(** [while (pts.length < n) pts.push(pts[Math.floor(Math.random() *
    pts.length)].clone())]; [k] counts the draws made so far. *)
Fixpoint halvorsen_pad (fuel : nat) (n : nat) (rnd : RandomSource) (k : nat)
  (pts : list THREE.Vector3) : completion (list THREE.Vector3) :=
  if (length pts <? n)%nat then
    match fuel with
    | O => OutOfFuel
    | S fuel' =>
        let key := Math_floor (rnd k * of_nat (length pts)) in
        match array_index key with
        | Some j =>
            match nth_error pts j with
            | Some p => halvorsen_pad fuel' n rnd (S k) (pts ++ [p])
            | None => Throw TypeError
            end
        | None => Throw TypeError
        end
    end
  else Normal pts.

(** Every iteration of the padding loop adds one point, so [n]
    iterations are enough fuel (see [halvorsen_pad_fuel]). *)
Definition halvorsen (n : nat) (rnd : RandomSource)
  : completion (list THREE.Vector3) :=
  s <- for_loop (n * 25)
         (fun i s => Normal (halvorsen_body n i s))
         (mkHalvorsen (dec 1 1) (of_nat 0) (of_nat 0) []) ;;
  pts <- halvorsen_pad n n rnd 0 (hpts s) ;;
  Normal (normalise pts (of_nat 60)).

Definition dualHelix_body (n : nat) (i : nat) (pts : list THREE.Vector3)
  : list THREE.Vector3 :=
  let turns := of_nat 5 in
  let radius := of_nat 15 in
  let height := of_nat 40 in
  let isSecondHelix := (i mod 2 =? 0)%nat in
  let angle := of_nat i / of_nat n * Math_PI * of_nat 2 * turns in
  let y := of_nat i / of_nat n * height - height / of_nat 2 in
  let r := radius + (if isSecondHelix then of_nat 5 else - of_nat 5) in
  let x := Math_cos angle * r in
  let z := Math_sin angle * r in
  pts ++ [THREE.mkVector3 x y z].

Definition dualHelix (n : nat) : completion (list THREE.Vector3) :=
  pts <- for_loop n (plain (dualHelix_body n)) [] ;;
  Normal (normalise pts (of_nat 60)).

Record DeJongState : Type := mkDeJong {
  jx : num; jy : num; jpts : list THREE.Vector3
}.

Definition deJong_body (i : nat) (s : DeJongState) : DeJongState :=
  let a := dec 14 1 in
  let b := - dec 23 1 in
  let c := dec 24 1 in
  let d := - dec 21 1 in
  let xn := Math_sin (a * jy s) - Math_cos (b * jx s) in
  let yn := Math_sin (c * jx s) - Math_cos (d * jy s) in
  let x := xn in
  let y := yn in
  let z := Math_sin (x * y * dec 5 1) in
  mkDeJong x y (jpts s ++ [THREE.mkVector3 x y z]).

Definition deJong (n : nat) : completion (list THREE.Vector3) :=
  s <- for_loop n (plain deJong_body)
         (mkDeJong (dec 1 1) (dec 1 1) []) ;;
  Normal (normalise (jpts s) (of_nat 55)).

(** A random source is usable when every draw, scaled by a positive
    length, floors to an index below that length, as draws from [0, 1)
    do. *)
Definition draws_in_range (rnd : RandomSource) : Prop :=
  forall k len, (0 < len)%nat ->
    exists j, array_index (Math_floor (rnd k * of_nat len)) = Some j
              /\ (j < len)%nat.


(** [PATTERNS = [torusKnot, halvorsen, dualHelix, deJong]]; only
    [halvorsen] draws from [Math.random]. *)
Definition Pattern : Type := nat -> RandomSource -> completion (list THREE.Vector3).

Definition PATTERNS : list Pattern :=
  [ fun n _ => torusKnot n;
    halvorsen;
    fun n _ => dualHelix n;
    fun n _ => deJong n ].

(** [PATTERNS[i](n)]: calling [undefined] is a [TypeError]. *)
Definition call_pattern (i : nat) (n : nat) (rnd : RandomSource)
  : completion (list THREE.Vector3) :=
  match nth_error PATTERNS i with
  | Some f => f n rnd
  | None => Throw TypeError
  end.

End Generators.

(** ** Notions used in the statements about the Normalizer *)

Section NormaliserNotions.
Context {N : Number}.

(** The map [normalise] applies to every point:
    [p.clone().sub(centre).multiplyScalar(k)]. *)
Definition recentre (centre : THREE.Vector3) (k : num) (p : THREE.Vector3)
  : THREE.Vector3 :=
  THREE.multiplyScalar (THREE.sub3 p centre) k.

(** The image of a box under a map of its two corners. *)
Definition box_map (f : THREE.Vector3 -> THREE.Vector3) (b : THREE.Box3)
  : THREE.Box3 :=
  match b with
  | THREE.EmptyBox => THREE.EmptyBox
  | THREE.Box lo hi => THREE.Box (f lo) (f hi)
  end.

End NormaliserNotions.

(** Order on vectors and boxes over the exact instance. *)
Module ExactBox.

Definition le3 (a b : @THREE.Vector3 Exact) : Prop :=
  (THREE.x a <= THREE.x b /\ THREE.y a <= THREE.y b
   /\ THREE.z a <= THREE.z b)%R.

Definition well_formed (b : @THREE.Box3 Exact) : Prop :=
  match b with
  | THREE.EmptyBox => True
  | THREE.Box lo hi => le3 lo hi
  end.

Definition contains (b : @THREE.Box3 Exact) (p : @THREE.Vector3 Exact)
  : Prop :=
  match b with
  | THREE.EmptyBox => False
  | THREE.Box lo hi => le3 lo p /\ le3 p hi
  end.

(** The largest dimension of a box with corners [lo <= hi]. *)
Definition spread (lo hi : @THREE.Vector3 Exact) : R :=
  Rmax (Rmax (THREE.x hi - THREE.x lo) (THREE.y hi - THREE.y lo))
       (THREE.z hi - THREE.z lo).

End ExactBox.

(** ** The component: buffers and morph controller *)

Section Component.
Context {N : Number}.
Local Open Scope js_scope.

Variable TorusKnotGeometry_position : list THREE.Vector3.

(** A [Float32Array] is a list of numbers of fixed length.  A load
    outside it is [undefined]; a store outside it is ignored; a store
    inside it rounds the value to binary32. *)
Definition Float32Array : Type := list num.

Definition new_Float32Array (len : nat) : Float32Array :=
  repeat (of_nat 0) len.

Definition load (a : Float32Array) (i : nat) : option num := nth_error a i.

Fixpoint store (a : Float32Array) (i : nat) (v : num) : Float32Array :=
  match a, i with
  | [], _ => []
  | _ :: t, O => Math_fround v :: t
  | h :: t, S i' => h :: store t i' v
  end.

(** [undefined] in arithmetic is NaN. *)
Definition to_number (o : option num) : num :=
  match o with
  | Some v => v
  | None => NaN
  end.

(** [userData.current = { from, to, next }] *)
Record UserData : Type := mkUserData {
  from : Float32Array;
  to : Float32Array;
  next : nat
}.

(** [object.rotation] of a point cloud; only [x] and [y] are written. *)
Record Rotation : Type := mkRotation { rot_x : num; rot_y : num }.

(** The mutable state of a mounted [MorphingParticles] component: the
    React state [currentPattern], the refs [isTrans], [prog] and
    [userData], the position arrays of the particle and sparkle
    geometries, the rotations of the two point clouds and the [time]
    uniform of the materials. *)
Record State : Type := mkState {
  currentPattern : nat;
  isTrans : bool;
  prog : num;
  userData : UserData;
  particleArr : Float32Array;
  sparkleArr : Float32Array;
  particles_rotation : Rotation;
  sparkles_rotation : Rotation;
  time : num
}.

Definition morphSpeed : num := dec 3 2.

(** The state after the first render, before any effect has run. *)
Definition initial : State := {|
  currentPattern := 0;
  isTrans := false;
  prog := of_nat 0;
  userData := mkUserData (new_Float32Array 0) (new_Float32Array 0) 0;
  particleArr := new_Float32Array (PARTICLE_COUNT * 3);
  sparkleArr := new_Float32Array (SPARK_COUNT * 3);
  particles_rotation := mkRotation (of_nat 0) (of_nat 0);
  sparkles_rotation := mkRotation (of_nat 0) (of_nat 0);
  time := of_nat 0
|}.

(** [pts[j] || new THREE.Vector3()] *)
Definition point_or_zero (pts : list THREE.Vector3) (j : nat) : THREE.Vector3 :=
  match nth_error pts j with
  | Some p => p
  | None => THREE.zero3
  end.

(** [a[idx] = p.x; a[idx + 1] = p.y; a[idx + 2] = p.z] *)
Definition store3 (a : Float32Array) (idx : nat) (p : THREE.Vector3)
  : Float32Array :=
  store (store (store a idx (THREE.x p)) (idx + 1)%nat (THREE.y p))
        (idx + 2)%nat (THREE.z p).

(** The body of the loop of [applyPattern], on the pair of arrays. *)
Definition applyPattern_body (pts : list THREE.Vector3) (j : nat)
  (arrs : Float32Array * Float32Array) : Float32Array * Float32Array :=
  let idx := (j * 3)%nat in
  let p := point_or_zero pts j in
  let particleArr := store3 (fst arrs) idx p in
  let sparkleArr :=
    if (j <? SPARK_COUNT)%nat then store3 (snd arrs) idx p else snd arrs in
  (particleArr, sparkleArr).

(** A handler returns the state it leaves behind and how it completed:
    when a generator throws, the writes made before the call remain. *)
Definition Handled : Type := State * completion unit.

(** [applyPattern(i)], the effect run once on mount with
    [i = currentPattern]. *)
Definition applyPattern (i : nat) (rnd : RandomSource) (st : State)
  : Handled :=
  match call_pattern TorusKnotGeometry_position i PARTICLE_COUNT rnd with
  | Normal pts =>
      match for_loop PARTICLE_COUNT (plain (applyPattern_body pts))
              (particleArr st, sparkleArr st) with
      | Normal arrs =>
          ({| currentPattern := currentPattern st;
              isTrans := isTrans st;
              prog := prog st;
              userData := userData st;
              particleArr := fst arrs;
              sparkleArr := snd arrs;
              particles_rotation := particles_rotation st;
              sparkles_rotation := sparkles_rotation st;
              time := time st |}, Normal tt)
      | Throw e => (st, Throw e)
      | OutOfFuel => (st, OutOfFuel)
      end
  | Throw e => (st, Throw e)
  | OutOfFuel => (st, OutOfFuel)
  end.

(** The body of the loop that fills [to] in [triggerMorph]. *)
Definition fill_to_body (toPtsVec : list THREE.Vector3) (j : nat)
  (to : Float32Array) : Float32Array :=
  let idx := (j * 3)%nat in
  let p := point_or_zero toPtsVec j in
  store3 to idx p.

(** [triggerMorph()].  The closure reads the [currentPattern] of the
    render that registered it; the effect re-registers it whenever
    [currentPattern] changes, so it reads the current value. *)
Definition triggerMorph (rnd : RandomSource) (st : State) : Handled :=
  if negb (isTrans st) then
    (* isTrans.current = true; prog.current = 0; *)
    let st1 := {| currentPattern := currentPattern st;
                  isTrans := true;
                  prog := of_nat 0;
                  userData := userData st;
                  particleArr := particleArr st;
                  sparkleArr := sparkleArr st;
                  particles_rotation := particles_rotation st;
                  sparkles_rotation := sparkles_rotation st;
                  time := time st |} in
    let next :=
      ((currentPattern st + 1)
         mod length (PATTERNS TorusKnotGeometry_position))%nat in
    let currentPositions := particleArr st in
    let fromPts := currentPositions in
    match call_pattern TorusKnotGeometry_position next PARTICLE_COUNT rnd with
    | Normal toPtsVec =>
        match for_loop PARTICLE_COUNT (plain (fill_to_body toPtsVec))
                (new_Float32Array (PARTICLE_COUNT * 3)) with
        | Normal to =>
            ({| currentPattern := currentPattern st1;
                isTrans := isTrans st1;
                prog := prog st1;
                userData := mkUserData fromPts to next;
                particleArr := particleArr st1;
                sparkleArr := sparkleArr st1;
                particles_rotation := particles_rotation st1;
                sparkles_rotation := sparkles_rotation st1;
                time := time st1 |}, Normal tt)
        | Throw e => (st1, Throw e)
        | OutOfFuel => (st1, OutOfFuel)
        end
    | Throw e => (st1, Throw e)
    | OutOfFuel => (st1, OutOfFuel)
    end
  else (st, Normal tt).

(** [object.rotation.y += delta * 0.05; object.rotation.x += delta * 0.02] *)
Definition rotate (r : Rotation) (delta : num) : Rotation :=
  let ry := rot_y r + delta * dec 5 2 in
  let rx := rot_x r + delta * dec 2 2 in
  mkRotation rx ry.

(** [p >= 1 ? 1 : 1 - Math.pow(1 - p, 3)] *)
Definition ease (p : num) : num :=
  if p >=? of_nat 1 then of_nat 1
  else of_nat 1 - Math_pow (of_nat 1 - p) (of_nat 3).

(** [from[i] + (to[i] - from[i]) * eased] *)
Definition lerp (from to : Float32Array) (eased : num) (i : nat) : num :=
  to_number (load from i)
  + (to_number (load to i) - to_number (load from i)) * eased.

(** The body of the interpolation loop of the tick. *)
Definition morph_body (from to : Float32Array) (eased : num) (i : nat)
  (arrs : Float32Array * Float32Array) : Float32Array * Float32Array :=
  let val := lerp from to eased i in
  let particleArr := store (fst arrs) i val in
  let sparkleArr :=
    if (i <? length (snd arrs))%nat then store (snd arrs) i val
    else snd arrs in
  (particleArr, sparkleArr).

(** The [useFrame] callback: one tick, at elapsed time [t], [delta]
    after the previous one.  [userData.to] is an object, so the test
    [if (to)] always succeeds. *)
Definition useFrame (t delta : num) (st : State) : State :=
  let particles_rotation := rotate (particles_rotation st) delta in
  let sparkles_rotation := rotate (sparkles_rotation st) delta in
  if isTrans st then
    let p := prog st + morphSpeed in
    let eased := ease p in
    let ud := userData st in
    let arrs :=
      match for_loop (length (particleArr st))
              (plain (morph_body (from ud) (to ud) eased))
              (particleArr st, sparkleArr st) with
      | Normal arrs => arrs
      | _ => (particleArr st, sparkleArr st)
      end in
    let finished := p >=? of_nat 1 in
    {| currentPattern := if finished then next ud else currentPattern st;
       isTrans := if finished then false else isTrans st;
       prog := p;
       userData := ud;
       particleArr := fst arrs;
       sparkleArr := snd arrs;
       particles_rotation := particles_rotation;
       sparkles_rotation := sparkles_rotation;
       time := t |}
  else
    {| currentPattern := currentPattern st;
       isTrans := isTrans st;
       prog := prog st;
       userData := userData st;
       particleArr := particleArr st;
       sparkleArr := sparkleArr st;
       particles_rotation := particles_rotation;
       sparkles_rotation := sparkles_rotation;
       time := t |}.

(** [k] consecutive ticks; [frames j] gives the elapsed time and the
    delta of the [j]-th one. *)
Fixpoint ticks (k : nat) (frames : nat -> num * num) (st : State) : State :=
  match k with
  | O => st
  | S k' =>
      ticks k' (fun j => frames (S j))
            (useFrame (fst (frames 0)) (snd (frames 0)) st)
  end.

(** The events of the component's life and the states they lead to. *)
Inductive Event : Type :=
| Mount (rnd : RandomSource)
| Trigger (rnd : RandomSource)
| Frame (t delta : num).

Definition step (ev : Event) (st : State) : State :=
  match ev with
  | Mount rnd => fst (applyPattern (currentPattern st) rnd st)
  | Trigger rnd => fst (triggerMorph rnd st)
  | Frame t delta => useFrame t delta st
  end.

Inductive reachable : State -> Prop :=
| reachable_initial : reachable initial
| reachable_step ev st : reachable st -> reachable (step ev st).

(** The sparkle array mirrors the first [SPARK_COUNT * 3] coordinates of
    the particle array. *)
Definition mirrored (st : State) : Prop :=
  sparkleArr st = firstn (SPARK_COUNT * 3) (particleArr st).

(** The coordinates of a point set in buffer order, [x0, y0, z0, x1, ...],
    and as a [Float32Array] holds them. *)
Definition positions (pts : list THREE.Vector3) : list num :=
  flat_map THREE.toArray pts.

Definition stored (values : list num) : Float32Array :=
  map Math_fround values.

(** [prog.current] after [k] further increments by [morphSpeed]. *)
Fixpoint progress_after (k : nat) (p : num) : num :=
  match k with
  | O => p
  | S k' => progress_after k' (p + morphSpeed)
  end.

End Component.

(** ** Two statements of the specification, as they are written *)

Section AsStated.
Context {N : Number}.
Local Open Scope js_scope.

(** "At the tick where progress first reaches or exceeds 1, every buffer
    coordinate equals the corresponding [to] coordinate exactly", for a
    transition whose [from] and [to] have the length of the particle
    array and hold values a [Float32Array] can hold. *)
Definition endpoint_exact : Prop :=
  forall (st : State) (t delta : num),
    isTrans st = true ->
    (prog st + morphSpeed >=? of_nat 1) = true ->
    length (from (userData st)) = length (particleArr st) ->
    length (to (userData st)) = length (particleArr st) ->
    Forall (fun v => Math_fround v = v) (from (userData st)) ->
    Forall (fun v => Math_fround v = v) (to (userData st)) ->
    particleArr (useFrame t delta st) = to (userData st).

(** "Progress reaches exactly 1 within 34 ticks after the trigger." *)
Definition reaches_one : Prop :=
  forall (knot : list THREE.Vector3) (rnd : RandomSource)
         (frames : nat -> num * num) (st : State),
    isTrans st = false ->
    exists k, (k <= 34)%nat
              /\ prog (ticks k frames (fst (triggerMorph knot rnd st)))
                 = of_nat 1.

End AsStated.

(** The progress [k] ticks after a trigger, in IEEE-754 arithmetic. *)
Definition progress64 (M : F64.MathLib) (k : nat) : float :=
  progress_after (N:=Float64 M) k PrimFloat.zero.

(** ** Sample inputs *)

Module Samples.




(** Two points in general position. *)
Definition diagonal : list (@THREE.Vector3 Exact) :=
  [ THREE.mkVector3 (N:=Exact) 0%R 0%R 0%R;
    THREE.mkVector3 (N:=Exact) 1%R 2%R 3%R ].

(** The diagonal, moved by (5, 5, 5) and doubled. *)
Definition offset : @THREE.Vector3 Exact :=
  THREE.mkVector3 (N:=Exact) (- 5)%R (- 5)%R (- 5)%R.

(** A knot geometry with a single vertex. *)
Definition one_vertex : list (@THREE.Vector3 Exact) :=
  [ THREE.mkVector3 (N:=Exact) 1%R 2%R 3%R ].

(** A random source that always draws 0, and frames of zero length. *)
Definition draw_zero : RandomSource (N:=Exact) := fun _ => 0%R.
Definition still_frames : nat -> @num Exact * @num Exact :=
  fun _ => (0%R, 0%R).

(** A math library for the IEEE-754 instance, to instantiate statements
    that hold for every library: small-angle sine and cosine, and the
    cube for [Math.pow(x, 3)]. *)
Definition math : F64.MathLib := {|
  F64.lib_sin := fun v => v;
  F64.lib_cos := fun _ => PrimFloat.one;
  F64.lib_pow := fun v _ => PrimFloat.mul (PrimFloat.mul v v) v
|}.

Definition still_frames64 (M : F64.MathLib)
  : nat -> @num (Float64 M) * @num (Float64 M) :=
  fun _ => (PrimFloat.zero, PrimFloat.zero).

Definition draw_half64 (M : F64.MathLib) : RandomSource (N:=Float64 M) :=
  fun _ => 0.5%float.

(** A transition at its last tick, over the exact instance: progress
    99/100, every coordinate moving from 0 to 1. *)
Definition ending : State (N:=Exact) :=
  @mkState Exact
    0 true (99 / 100)%R
    (@mkUserData Exact
       (repeat 0%R (PARTICLE_COUNT * 3))
       (repeat 1%R (PARTICLE_COUNT * 3))
       1)
    (repeat 0%R (PARTICLE_COUNT * 3))
    (repeat 0%R (SPARK_COUNT * 3))
    (@mkRotation Exact 0%R 0%R)
    (@mkRotation Exact 0%R 0%R)
    0%R.

(** A transition one tick before its end, over the IEEE-754 instance:
    33 ticks after the trigger, every coordinate moving from 10 to
    [2^-52].  Both values are binary32 values. *)
Definition last_tick (M : F64.MathLib) : State (N:=Float64 M) :=
  @mkState (Float64 M)
    1 true (progress64 M 33)
    (@mkUserData (Float64 M)
       (repeat 10%float (PARTICLE_COUNT * 3))
       (repeat 0x1p-52%float (PARTICLE_COUNT * 3))
       2)
    (repeat 10%float (PARTICLE_COUNT * 3))
    (repeat 10%float (SPARK_COUNT * 3))
    (@mkRotation (Float64 M) PrimFloat.zero PrimFloat.zero)
    (@mkRotation (Float64 M) PrimFloat.zero PrimFloat.zero)
    PrimFloat.zero.

End Samples.

(** ** Notions used in the further properties *)

(** The loop of [halvorsen] collects a point at the indices [i] with
    [i > 200 && i % 25 === 0]. *)
Definition is_sample (i : nat) : bool := (200 <? i) && (i mod 25 =? 0).

Section FurtherNotions.
Context {N : Number}.

(** What the lengths of the arrays of a state are: the two position
    arrays have their fixed lengths, and [from] and [to] are either both
    empty (before the first trigger that reached a generator's result)
    or both as long as the particle array. *)
Definition well_sized (st : State) : Prop :=
  length (particleArr st) = PARTICLE_COUNT * 3
  /\ length (sparkleArr st) = SPARK_COUNT * 3
  /\ ((from (userData st) = [] /\ to (userData st) = [])
      \/ (length (from (userData st)) = PARTICLE_COUNT * 3
          /\ length (to (userData st)) = PARTICLE_COUNT * 3)).

(** The point set the loops of [applyPattern] and [triggerMorph] read
    from a generator's result: its first [PARTICLE_COUNT] points, with
    the zero vector where the result has none. *)
Definition points_read (pts : list THREE.Vector3) : list THREE.Vector3 :=
  map (point_or_zero pts) (seq 0 PARTICLE_COUNT).

End FurtherNotions.

(** A value between two others, in either order. *)
Definition between (a b v : R) : Prop :=
  (a <= v <= b \/ b <= v <= a)%R.

(** ** Tactics for the exact instance *)

Ltac exact_arith :=
  cbn [num add sub mul div neg ltb geb Math_min Math_max Math_floor
       truthy of_nat array_index NaN Math_fround Exact] in *.


Ltac vec_simpl :=
  unfold recentre, THREE.multiplyScalar, THREE.sub3, THREE.addVectors,
    THREE.min3, THREE.max3, THREE.zero3, ExactBox.le3 in *;
  cbn [THREE.x THREE.y THREE.z] in *; exact_arith.

(* ================================================================== *)
(** * Part II.  Properties                                             *)
(* ================================================================== *)

(** ** Loops *)

Section Loops.
Variable St : Type.

Lemma for_range_plain (f : nat -> St -> St) (indices : list nat) (s : St) :
  for_range indices (plain f) s
  = Normal (fold_left (fun acc i => f i acc) indices s).
Proof.
  revert s; induction indices as [|i rest IH]; intro s; simpl.
  - reflexivity.
  - apply IH.
Qed.

Lemma for_loop_plain (f : nat -> St -> St) (bound : nat) (s : St) :
  for_loop bound (plain f) s
  = Normal (fold_left (fun acc i => f i acc) (seq 0 bound) s).
Proof. apply for_range_plain. Qed.

(** An invariant of the body is an invariant of the fold. *)
Lemma fold_invariant (P : St -> Prop) (f : nat -> St -> St)
  (indices : list nat) (s : St) :
  P s -> (forall i acc, P acc -> P (f i acc)) ->
  P (fold_left (fun acc i => f i acc) indices s).
Proof.
  intros Hs Hf; revert s Hs.
  induction indices as [|i rest IH]; intros s Hs; simpl; auto.
Qed.

End Loops.

Lemma constants_ordered : SPARK_COUNT <= PARTICLE_COUNT.
Proof. unfold SPARK_COUNT, PARTICLE_COUNT; lia. Qed.

Lemma PARTICLE_COUNT_large : 10 <= PARTICLE_COUNT.
Proof. unfold PARTICLE_COUNT; lia. Qed.

(** The counts are large unary numbers; proofs use them through the two
    facts above and never unfold them. *)
Global Opaque PARTICLE_COUNT SPARK_COUNT.

(** ** Float32Array stores *)

Section Stores.
Context {N : Number}.

Lemma store_length (a : Float32Array) i v :
  length (store a i v) = length a.
Proof.
  revert i; induction a as [|h t IH]; intros [|i]; simpl; auto.
Qed.

Lemma store_out_of_range (a : Float32Array) i v :
  length a <= i -> store a i v = a.
Proof.
  revert i; induction a as [|h t IH]; intros [|i] H; simpl in *;
    try reflexivity; try lia.
  f_equal; apply IH; lia.
Qed.

(** A store commutes with taking a prefix: inside the prefix it is the
    same store, outside it neither side changes. *)
Lemma firstn_store (a : Float32Array) len i v :
  firstn len (store a i v) = store (firstn len a) i v.
Proof.
  revert len i; induction a as [|h t IH]; intros [|len] [|i]; simpl;
    try reflexivity.
  f_equal; apply IH.
Qed.

Lemma store3_length (a : Float32Array) idx p :
  length (store3 a idx p) = length a.
Proof. unfold store3; now rewrite !store_length. Qed.

Lemma firstn_store3 (a : Float32Array) len idx p :
  firstn len (store3 a idx p) = store3 (firstn len a) idx p.
Proof. unfold store3; now rewrite !firstn_store. Qed.

Lemma store3_out_of_range (a : Float32Array) idx p :
  length a <= idx -> store3 a idx p = a.
Proof.
  intro H; unfold store3.
  rewrite (store_out_of_range a) by lia.
  rewrite (store_out_of_range a) by lia.
  apply store_out_of_range; lia.
Qed.

Lemma store_middle (pre : Float32Array) h t v :
  store (pre ++ h :: t) (length pre) v = pre ++ Math_fround v :: t.
Proof.
  induction pre as [|a pre IH]; simpl; [reflexivity|now rewrite IH].
Qed.

(** Storing [g i] at every index [i] of an array, in order, leaves the
    rounded values of [g]. *)
Lemma fold_store_all (g : nat -> num) (post pre : Float32Array) :
  fold_left (fun a i => store a i (g i)) (seq (length pre) (length post))
            (pre ++ post)
  = pre ++ map (fun i => Math_fround (g i)) (seq (length pre) (length post)).
Proof.
  revert pre; induction post as [|h t IH]; intro pre; simpl.
  - reflexivity.
  - rewrite store_middle.
    change (pre ++ Math_fround (g (length pre)) :: t)
      with (pre ++ [Math_fround (g (length pre))] ++ t).
    rewrite app_assoc.
    replace (S (length pre))
      with (length (pre ++ [Math_fround (g (length pre))]))
      by (rewrite length_app; simpl; lia).
    rewrite IH, <- app_assoc; simpl.
    now rewrite length_app, Nat.add_1_r.
Qed.

End Stores.

(** ** The Normalizer: shape of the result *)

Section NormaliseShape.
Context {N : Number}.

Lemma normalise_length (points : list THREE.Vector3) (size : num) :
  length (normalise points size) = length points.
Proof.
  destruct points as [|p rest]; [reflexivity|].
  unfold normalise; now rewrite length_map.
Qed.

End NormaliseShape.

(** ** The generators: how many points they return *)

Section GeneratorCounts.
Context {N : Number}.
Variable TorusKnotGeometry_position : list THREE.Vector3.

(** *** torusKnot *)

Lemma torusKnot_loop (points : list THREE.Vector3) :
  points <> [] ->
  forall indices result,
  exists result',
    for_range indices
      (fun i result =>
         match nth_error points (i mod length points) with
         | Some p => Normal (result ++ [p], false)
         | None => Throw TypeError
         end) result = Normal result'
    /\ length result' = length result + length indices.
Proof.
  intros Hne; induction indices as [|i rest IH]; intro result; simpl.
  - exists result; split; [reflexivity|lia].
  - destruct (nth_error points (i mod length points)) as [p|] eqn:Hp.
    + simpl. destruct (IH (result ++ [p])) as (r' & Hr & Hl).
      exists r'; split; [exact Hr|].
      rewrite Hl, length_app; simpl; lia.
    + exfalso. apply nth_error_None in Hp.
      assert (length points <> 0) by (destruct points; simpl; congruence).
      pose proof (Nat.mod_upper_bound i (length points) H); lia.
Qed.

Lemma torusKnot_count (n : nat) :
  TorusKnotGeometry_position <> [] ->
  exists pts,
    torusKnot TorusKnotGeometry_position n = Normal pts /\ length pts = n.
Proof.
  intro Hne; unfold torusKnot, for_loop.
  destruct (torusKnot_loop Hne (seq 0 n) []) as (r & Hr & Hl).
  rewrite Hr; simpl.
  eexists; split; [reflexivity|].
  rewrite normalise_length, Hl, length_seq; reflexivity.
Qed.

(** *** dualHelix and deJong *)

Lemma dualHelix_fold_length (n : nat) indices pts :
  length (fold_left (fun acc i => dualHelix_body n i acc) indices pts)
  = length pts + length indices.
Proof.
  revert pts; induction indices as [|i rest IH]; intro pts; simpl; [lia|].
  rewrite IH; unfold dualHelix_body; rewrite length_app; simpl; lia.
Qed.

Lemma dualHelix_count (n : nat) :
  exists pts, dualHelix n = Normal pts /\ length pts = n.
Proof.
  unfold dualHelix; rewrite for_loop_plain; simpl.
  eexists; split; [reflexivity|].
  now rewrite normalise_length, dualHelix_fold_length, length_seq.
Qed.

Lemma deJong_fold_length indices s :
  length (jpts (fold_left (fun acc i => deJong_body i acc) indices s))
  = length (jpts s) + length indices.
Proof.
  revert s; induction indices as [|i rest IH]; intro s; simpl; [lia|].
  rewrite IH; unfold deJong_body; simpl; rewrite length_app; simpl; lia.
Qed.

Lemma deJong_count (n : nat) :
  exists pts, deJong n = Normal pts /\ length pts = n.
Proof.
  unfold deJong; rewrite for_loop_plain; simpl.
  eexists; split; [reflexivity|].
  now rewrite normalise_length, deJong_fold_length, length_seq.
Qed.

(** *** halvorsen: the integration loop *)

(** The loop collects a point at index [i] exactly when [i > 200] and
    [i] is a multiple of 25; the first such index is 225. *)
Lemma sample_index_from_225 (i : nat) :
  (200 <? i) && (i mod 25 =? 0) = true -> 225 <= i.
Proof.
  rewrite andb_true_iff, Nat.ltb_lt, Nat.eqb_eq; intros [Hgt Hmod].
  pose proof (Nat.div_mod_eq i 25); lia.
Qed.

Lemma halvorsen_body_flag n i s :
  snd (halvorsen_body n i s)
  = (n <=? length (hpts (fst (halvorsen_body n i s)))).
Proof. reflexivity. Qed.

Lemma halvorsen_body_pts n i s :
  hpts (fst (halvorsen_body n i s))
  = if (200 <? i) && (i mod 25 =? 0)
    then hpts s ++ [THREE.mkVector3
                      (hx (fst (halvorsen_body n i s)))
                      (hy (fst (halvorsen_body n i s)))
                      (hz (fst (halvorsen_body n i s)))]
    else hpts s.
Proof. reflexivity. Qed.

(** Before index 225 nothing is collected. *)
Lemma halvorsen_loop_before_225 (n : nat) indices s :
  1 <= n -> Forall (fun i => i < 225) indices -> hpts s = [] ->
  exists s',
    for_range indices (fun i s => Normal (halvorsen_body n i s)) s
    = Normal s' /\ hpts s' = [].
Proof.
  intros Hn; revert s; induction indices as [|i rest IH]; intros s Hall He.
  - exists s; split; [reflexivity|exact He].
  - inversion Hall as [|? ? Hi Hrest]; subst.
    cbn [for_range bind].
    assert (Hpts : hpts (fst (halvorsen_body n i s)) = []).
    { rewrite halvorsen_body_pts.
      destruct ((200 <? i) && (i mod 25 =? 0)) eqn:Hc; [|exact He].
      apply sample_index_from_225 in Hc; lia. }
    rewrite halvorsen_body_flag, Hpts; simpl.
    destruct (n <=? 0) eqn:Hle; [apply Nat.leb_le in Hle; lia|].
    apply IH; assumption.
Qed.

(** The loop never collects more than [n] points, and once index 225 has
    been visited at least one. *)
Lemma halvorsen_loop_bounds (n : nat) indices s :
  1 <= n -> length (hpts s) < n ->
  exists s',
    for_range indices (fun i s => Normal (halvorsen_body n i s)) s
    = Normal s'
    /\ length (hpts s') <= n
    /\ (In 225 indices \/ hpts s <> [] -> hpts s' <> []).
Proof.
  intros Hn; revert s; induction indices as [|i rest IH]; intros s Hlt.
  - exists s; repeat split; [lia|]. intros [[]|H]; exact H.
  - cbn [for_range bind].
    rewrite halvorsen_body_flag.
    pose proof (halvorsen_body_pts n i s) as Hpts.
    set (s1 := fst (halvorsen_body n i s)) in *.
    assert (Hlen : length (hpts s1) <= length (hpts s) + 1).
    { rewrite Hpts; destruct ((200 <? i) && (i mod 25 =? 0));
        rewrite ?length_app; simpl; lia. }
    assert (Hgrow : i = 225 \/ hpts s <> [] -> hpts s1 <> []).
    { rewrite Hpts.
      destruct ((200 <? i) && (i mod 25 =? 0)) eqn:Hc.
      - intros _ Hnil; apply app_eq_nil in Hnil; destruct Hnil; discriminate.
      - intros [->|Hs]; [discriminate Hc|exact Hs]. }
    destruct (n <=? length (hpts s1)) eqn:Hbreak.
    + apply Nat.leb_le in Hbreak.
      exists s1; repeat split; [lia|].
      intros _ Hnil; rewrite Hnil in Hbreak; simpl in Hbreak; lia.
    + apply Nat.leb_gt in Hbreak.
      destruct (IH s1 Hbreak) as (s' & Hs' & Hle & Hne).
      exists s'; repeat split; [exact Hs'|exact Hle|].
      intros [[Hi|Hin]|Hs]; apply Hne; auto.
Qed.

(** *** halvorsen: the padding loop *)

(** With nothing collected the padding loop has nothing to copy: the
    load [pts[0]] is [undefined], and calling [clone] on it throws. *)
Lemma halvorsen_pad_empty (fuel n : nat) (rnd : RandomSource) (k : nat) :
  1 <= n -> halvorsen_pad (S fuel) n rnd k [] = Throw TypeError.
Proof.
  intro Hn; simpl.
  destruct (0 <? n) eqn:H0; [|apply Nat.ltb_ge in H0; lia].
  destruct (array_index _) as [j|]; [|reflexivity].
  destruct j; reflexivity.
Qed.

(** From a non-empty list the padding loop returns exactly [n] points,
    given fuel for the missing ones. *)
Lemma halvorsen_pad_fuel (rnd : RandomSource) :
  draws_in_range rnd ->
  forall fuel n k pts,
    pts <> [] -> length pts <= n -> n - length pts <= fuel ->
    exists pts',
      halvorsen_pad fuel n rnd k pts = Normal pts'
      /\ length pts' = n /\ incl pts' pts.
Proof.
  intros Hrnd; induction fuel as [|fuel IH]; intros n k pts Hne Hle Hfuel.
  - exists pts; simpl.
    destruct (length pts <? n) eqn:Hlt; [apply Nat.ltb_lt in Hlt; lia|].
    repeat split; [lia|apply incl_refl].
  - simpl. destruct (length pts <? n) eqn:Hlt.
    + apply Nat.ltb_lt in Hlt.
      assert (Hpos : 0 < length pts)
        by (destruct pts; [congruence|simpl; lia]).
      destruct (Hrnd k (length pts) Hpos) as (j & Hj & Hjlt).
      rewrite Hj.
      destruct (nth_error pts j) as [p|] eqn:Hp;
        [|apply nth_error_None in Hp; lia].
      destruct (IH n (S k) (pts ++ [p])) as (pts' & Hr & Hl & Hincl).
      * intro Hnil; apply app_eq_nil in Hnil; destruct Hnil; discriminate.
      * rewrite length_app; simpl; lia.
      * rewrite length_app; simpl; lia.
      * exists pts'; repeat split; [exact Hr|exact Hl|].
        intros q Hq. apply Hincl in Hq. apply in_app_or in Hq.
        destruct Hq as [Hq|[<-|[]]]; [exact Hq|].
        eapply nth_error_In; eassumption.
    + apply Nat.ltb_ge in Hlt.
      exists pts; repeat split; [lia|apply incl_refl].
Qed.

(** *** halvorsen: the whole function *)

Lemma halvorsen_zero (rnd : RandomSource) : halvorsen 0 rnd = Normal [].
Proof. reflexivity. Qed.

Lemma halvorsen_small (n : nat) (rnd : RandomSource) :
  1 <= n <= 9 -> halvorsen n rnd = Throw TypeError.
Proof.
  intros [Hlo Hhi]; unfold halvorsen, for_loop.
  destruct (halvorsen_loop_before_225 (n := n) (indices := seq 0 (n * 25))
              (mkHalvorsen (dec 1 1) (of_nat 0) (of_nat 0) []) Hlo)
    as (s' & Hs' & Hnil).
  - apply Forall_forall; intros i Hi; apply in_seq in Hi; lia.
  - reflexivity.
  - rewrite Hs'; cbn [bind]; rewrite Hnil.
    destruct n as [|n]; [lia|].
    rewrite halvorsen_pad_empty by lia; reflexivity.
Qed.

Lemma halvorsen_large (n : nat) (rnd : RandomSource) :
  10 <= n -> draws_in_range rnd ->
  exists pts, halvorsen n rnd = Normal pts /\ length pts = n.
Proof.
  intros Hn Hrnd; unfold halvorsen, for_loop.
  destruct (halvorsen_loop_bounds (n := n) (seq 0 (n * 25))
              (mkHalvorsen (dec 1 1) (of_nat 0) (of_nat 0) []))
    as (s' & Hs' & Hle & Hne); [lia|simpl; lia|].
  rewrite Hs'; cbn [bind].
  destruct (halvorsen_pad_fuel Hrnd (fuel := n) (n := n) 0 (pts := hpts s'))
    as (pts' & Hp & Hl & _); [|exact Hle|lia|].
  - apply Hne; left; apply in_seq; lia.
  - rewrite Hp; cbn [bind]. eexists; split; [reflexivity|].
    now rewrite normalise_length.
Qed.

End GeneratorCounts.

(** ** The buffers *)

Section Buffers.
Context {N : Number}.
Variable knot : list THREE.Vector3.

Lemma firstn_repeat_le (v : num) (k n : nat) :
  k <= n -> firstn k (repeat v n) = repeat v k.
Proof.
  revert n; induction k as [|k IH]; intros [|n] H; simpl;
    try reflexivity; try lia.
  f_equal; apply IH; lia.
Qed.

(** The interpolation loop writes the particle array independently of
    the sparkle array ... *)
Lemma morph_fold_fst from to eased indices pa sa :
  fst (fold_left (fun acc i => morph_body from to eased i acc) indices
         (pa, sa))
  = fold_left (fun a i => store a i (lerp from to eased i)) indices pa.
Proof.
  revert pa sa; induction indices as [|i rest IH]; intros pa sa; simpl.
  - reflexivity.
  - unfold morph_body at 2; simpl.
    destruct (i <? length sa); apply IH.
Qed.

(** ... and keeps the sparkle array a prefix of it. *)
Lemma morph_body_prefix from to eased i len (arrs : Float32Array * Float32Array) :
  snd arrs = firstn len (fst arrs) ->
  snd (morph_body from to eased i arrs)
  = firstn len (fst (morph_body from to eased i arrs)).
Proof.
  intro H; unfold morph_body; cbn [fst snd].
  rewrite firstn_store, <- H.
  destruct (i <? length (snd arrs)) eqn:Hi; [reflexivity|].
  apply Nat.ltb_ge in Hi. now rewrite store_out_of_range.
Qed.

Lemma applyPattern_body_prefix pts j (arrs : Float32Array * Float32Array) :
  snd arrs = firstn (SPARK_COUNT * 3) (fst arrs) ->
  snd (applyPattern_body pts j arrs)
  = firstn (SPARK_COUNT * 3) (fst (applyPattern_body pts j arrs)).
Proof.
  intro H; unfold applyPattern_body; cbn [fst snd].
  rewrite firstn_store3, <- H.
  destruct (j <? SPARK_COUNT) eqn:Hj; [reflexivity|].
  apply Nat.ltb_ge in Hj.
  rewrite store3_out_of_range; [reflexivity|].
  rewrite H, length_firstn; lia.
Qed.

Lemma morph_body_lengths from to eased i (arrs : Float32Array * Float32Array) :
  length (fst (morph_body from to eased i arrs)) = length (fst arrs).
Proof. unfold morph_body; cbn [fst]; apply store_length. Qed.

Lemma mirrored_initial : mirrored initial.
Proof.
  unfold mirrored, initial, new_Float32Array; cbn [sparkleArr particleArr].
  rewrite firstn_repeat_le; [reflexivity|].
  pose proof constants_ordered; lia.
Qed.

Lemma mirrored_useFrame t delta st :
  mirrored st -> mirrored (useFrame t delta st).
Proof.
  unfold mirrored, useFrame; intro H.
  destruct (isTrans st); cbn [sparkleArr particleArr]; [|exact H].
  rewrite for_loop_plain.
  apply (fold_invariant
           (fun arrs : Float32Array * Float32Array =>
              snd arrs = firstn (SPARK_COUNT * 3) (fst arrs))).
  - exact H.
  - intros i acc; apply morph_body_prefix.
Qed.

Lemma applyPattern_loop_prefix pts bound (arrs : Float32Array * Float32Array) :
  snd arrs = firstn (SPARK_COUNT * 3) (fst arrs) ->
  exists arrs',
    for_loop bound (plain (applyPattern_body pts)) arrs = Normal arrs'
    /\ snd arrs' = firstn (SPARK_COUNT * 3) (fst arrs').
Proof.
  intro H; rewrite for_loop_plain; eexists; split; [reflexivity|].
  apply (fold_invariant
           (fun arrs : Float32Array * Float32Array =>
              snd arrs = firstn (SPARK_COUNT * 3) (fst arrs))).
  - exact H.
  - intros j acc; apply applyPattern_body_prefix.
Qed.

Lemma mirrored_applyPattern i rnd st :
  mirrored st -> mirrored (fst (applyPattern knot i rnd st)).
Proof.
  unfold mirrored, applyPattern; intro H.
  destruct (call_pattern _ _ _ _) as [pts| |]; cbn [fst];
    [|exact H|exact H].
  destruct (applyPattern_loop_prefix pts PARTICLE_COUNT
              (particleArr st, sparkleArr st) H) as (arrs' & -> & H').
  exact H'.
Qed.

(** The trigger never writes the position arrays. *)
Lemma triggerMorph_arrays rnd st :
  particleArr (fst (triggerMorph knot rnd st)) = particleArr st
  /\ sparkleArr (fst (triggerMorph knot rnd st)) = sparkleArr st.
Proof.
  unfold triggerMorph.
  destruct (negb (isTrans st)); [|split; reflexivity].
  destruct (call_pattern _ _ _ _) as [pts| |]; [|split; reflexivity..].
  rewrite for_loop_plain; split; reflexivity.
Qed.

Lemma mirrored_triggerMorph rnd st :
  mirrored st -> mirrored (fst (triggerMorph knot rnd st)).
Proof.
  unfold mirrored; intro H.
  destruct (triggerMorph_arrays rnd st) as [-> ->]; exact H.
Qed.

Lemma mirrored_reachable st : reachable knot st -> mirrored st.
Proof.
  induction 1 as [|ev st Hst IH].
  - apply mirrored_initial.
  - destruct ev as [rnd|rnd|t delta]; cbn [step].
    + now apply mirrored_applyPattern.
    + now apply mirrored_triggerMorph.
    + now apply mirrored_useFrame.
Qed.

End Buffers.

(** ** The morph controller *)

Section Controller.
Context {N : Number}.
Variable knot : list THREE.Vector3.
Local Open Scope js_scope.

(** *** The trigger *)

Lemma triggerMorph_busy rnd st :
  isTrans st = true -> triggerMorph knot rnd st = (st, Normal tt).
Proof. unfold triggerMorph; intros ->; reflexivity. Qed.

(** Whatever the generator does, a trigger received while idle starts a
    transition at progress 0. *)
Lemma triggerMorph_starts rnd st :
  isTrans st = false ->
  isTrans (fst (triggerMorph knot rnd st)) = true
  /\ prog (fst (triggerMorph knot rnd st)) = of_nat 0
  /\ currentPattern (fst (triggerMorph knot rnd st)) = currentPattern st.
Proof.
  unfold triggerMorph; intros ->; cbn [negb].
  destruct (call_pattern _ _ _ _) as [pts| |]; [|repeat split..].
  rewrite for_loop_plain; repeat split.
Qed.

Lemma store3_middle (pre : Float32Array) a b c t (p : THREE.Vector3) :
  store3 (pre ++ a :: b :: c :: t) (length pre) p
  = pre ++ Math_fround (THREE.x p) :: Math_fround (THREE.y p)
        :: Math_fround (THREE.z p) :: t.
Proof.
  unfold store3.
  rewrite store_middle.
  replace (length pre + 1)%nat with (length (pre ++ [Math_fround (THREE.x p)]))
    by (rewrite length_app; reflexivity).
  change (pre ++ Math_fround (THREE.x p) :: b :: c :: t)
    with (pre ++ [Math_fround (THREE.x p)] ++ b :: c :: t).
  rewrite app_assoc, store_middle.
  replace (length pre + 2)%nat
    with (length ((pre ++ [Math_fround (THREE.x p)])
                    ++ [Math_fround (THREE.y p)]))
    by (rewrite !length_app; simpl; lia).
  change ((pre ++ [Math_fround (THREE.x p)]) ++ Math_fround (THREE.y p) :: c :: t)
    with ((pre ++ [Math_fround (THREE.x p)])
            ++ [Math_fround (THREE.y p)] ++ c :: t).
  rewrite app_assoc, store_middle, <- !app_assoc; reflexivity.
Qed.



Lemma positions_length (pts : list THREE.Vector3) :
  length (positions pts) = (length pts * 3)%nat.
Proof.
  induction pts as [|p pts IH]; [reflexivity|].
  unfold positions in *; cbn [flat_map THREE.toArray app length].
  rewrite IH; lia.
Qed.


(** *** One tick *)

Lemma useFrame_idle t delta st :
  isTrans st = false ->
  isTrans (useFrame t delta st) = false
  /\ prog (useFrame t delta st) = prog st
  /\ currentPattern (useFrame t delta st) = currentPattern st
  /\ userData (useFrame t delta st) = userData st
  /\ particleArr (useFrame t delta st) = particleArr st.
Proof. unfold useFrame; intros ->; repeat split. Qed.

(** A tick of an active transition adds [morphSpeed] to the progress,
    whatever [delta] is, and writes the interpolated value of every
    coordinate. *)
Lemma useFrame_transition t delta st :
  isTrans st = true ->
  let p := prog st + morphSpeed in
  prog (useFrame t delta st) = p
  /\ userData (useFrame t delta st) = userData st
  /\ isTrans (useFrame t delta st) = negb (p >=? of_nat 1)
  /\ currentPattern (useFrame t delta st)
     = (if p >=? of_nat 1 then next (userData st) else currentPattern st)
  /\ particleArr (useFrame t delta st)
     = map (fun i => Math_fround
                       (lerp (from (userData st)) (to (userData st)) (ease p) i))
           (seq 0 (length (particleArr st))).
Proof.
  intros Htrans p; unfold useFrame; rewrite Htrans.
  cbn [prog userData isTrans currentPattern particleArr]; fold p.
  repeat split; try (now destruct (p >=? of_nat 1)).
  rewrite for_loop_plain, morph_fold_fst.
  exact (fold_store_all
           (lerp (from (userData st)) (to (userData st)) (ease p))
           (particleArr st) []).
Qed.

(** *** Several ticks *)

Lemma ticks_S k frames st :
  ticks (S k) frames st
  = ticks k (fun j => frames (S j))
          (useFrame (fst (frames 0%nat)) (snd (frames 0%nat)) st).
Proof. reflexivity. Qed.

Lemma ticks_last k frames st :
  ticks (S k) frames st
  = useFrame (fst (frames k)) (snd (frames k)) (ticks k frames st).
Proof.
  revert frames st; induction k as [|k IH]; intros frames st.
  - reflexivity.
  - rewrite ticks_S, IH; reflexivity.
Qed.

(** While the accumulated progress stays below 1 the transition stays
    active and only the progress and the arrays change. *)
Lemma ticks_running k : forall frames st,
  isTrans st = true ->
  (forall j, (j < k)%nat ->
             (progress_after (S j) (prog st) >=? of_nat 1) = false) ->
  isTrans (ticks k frames st) = true
  /\ prog (ticks k frames st) = progress_after k (prog st)
  /\ userData (ticks k frames st) = userData st
  /\ currentPattern (ticks k frames st) = currentPattern st
  /\ length (particleArr (ticks k frames st)) = length (particleArr st).
Proof.
  induction k as [|k IH]; intros frames st Htrans Hbelow.
  - repeat split; assumption.
  - rewrite ticks_S.
    destruct (useFrame_transition (fst (frames 0%nat)) (snd (frames 0%nat))
                st Htrans) as (Hp & Hud & Ht & Hc & Ha).
    pose proof (Hbelow 0%nat ltac:(lia)) as H0; cbn [progress_after] in H0.
    rewrite H0 in Ht, Hc; cbn [negb] in Ht.
    set (st1 := useFrame _ _ st) in *.
    destruct (IH (fun j => frames (S j)) st1 Ht) as (Ht' & Hp' & Hud' & Hc' & Hl').
    + intros j Hj. rewrite Hp.
      exact (Hbelow (S j) ltac:(lia)).
    + repeat split; try assumption.
      * rewrite Hp', Hp; reflexivity.
      * congruence.
      * congruence.
      * rewrite Hl', Ha, length_map, length_seq; reflexivity.
Qed.

(** After the transition has ended, ticks change neither the progress
    nor the particle array. *)
Lemma ticks_idle k : forall frames st,
  isTrans st = false ->
  isTrans (ticks k frames st) = false
  /\ prog (ticks k frames st) = prog st
  /\ currentPattern (ticks k frames st) = currentPattern st
  /\ particleArr (ticks k frames st) = particleArr st.
Proof.
  induction k as [|k IH]; intros frames st Hidle.
  - repeat split; assumption.
  - rewrite ticks_S.
    destruct (useFrame_idle (fst (frames 0%nat)) (snd (frames 0%nat)) st Hidle)
      as (Ht & Hp & Hc & _ & Ha).
    destruct (IH (fun j => frames (S j)) _ Ht) as (Ht' & Hp' & Hc' & Ha').
    repeat split; congruence.
Qed.

(** The tick that takes the accumulated progress to 1 or above ends the
    transition: it writes the interpolation with an eased value of
    exactly 1 and makes [next] the current pattern. *)
Lemma useFrame_final t delta st :
  isTrans st = true ->
  (prog st + morphSpeed >=? of_nat 1) = true ->
  ease (prog st + morphSpeed) = of_nat 1
  /\ isTrans (useFrame t delta st) = false
  /\ currentPattern (useFrame t delta st) = next (userData st)
  /\ prog (useFrame t delta st) = prog st + morphSpeed
  /\ particleArr (useFrame t delta st)
     = map (fun i => Math_fround
                       (lerp (from (userData st)) (to (userData st))
                             (of_nat 1) i))
           (seq 0 (length (particleArr st))).
Proof.
  intros Htrans Hfin.
  destruct (useFrame_transition t delta st Htrans) as (Hp & _ & Ht & Hc & Ha).
  assert (He : ease (prog st + morphSpeed) = of_nat 1)
    by (unfold ease; now rewrite Hfin).
  rewrite Hfin in Ht, Hc; rewrite He in Ha.
  repeat split; assumption.
Qed.

(** The whole course of a transition whose progress first reaches 1 at
    tick [K + 1]. *)
Lemma ticks_schedule (K : nat) frames st :
  isTrans st = true ->
  (forall j, (j < K)%nat ->
             (progress_after (S j) (prog st) >=? of_nat 1) = false) ->
  (progress_after (S K) (prog st) >=? of_nat 1) = true ->
  (forall k, (k <= K)%nat ->
     isTrans (ticks k frames st) = true
     /\ prog (ticks k frames st) = progress_after k (prog st))
  /\ (forall k, (K < k)%nat ->
     isTrans (ticks k frames st) = false
     /\ prog (ticks k frames st) = progress_after (S K) (prog st)
     /\ currentPattern (ticks k frames st) = next (userData st)).
Proof.
  intros Htrans Hrun Hfin.
  assert (Hbefore : forall k, (k <= K)%nat ->
     isTrans (ticks k frames st) = true
     /\ prog (ticks k frames st) = progress_after k (prog st)
     /\ userData (ticks k frames st) = userData st).
  { intros k Hk.
    destruct (@ticks_running k frames st Htrans) as (H1 & H2 & H3 & _).
    - intros j Hj; apply Hrun; lia.
    - auto. }
  split; [intros k Hk; destruct (Hbefore k Hk) as (? & ? & ?); auto|].
  assert (Hprog : forall k p,
            progress_after k p + morphSpeed = progress_after (S k) p).
  { induction k as [|k IH]; intro p; [reflexivity|].
    cbn [progress_after] in *; apply IH. }
  assert (Hat : isTrans (ticks (S K) frames st) = false
     /\ prog (ticks (S K) frames st) = progress_after (S K) (prog st)
     /\ currentPattern (ticks (S K) frames st) = next (userData st)).
  { destruct (Hbefore K (le_n K)) as (Ht & Hp & Hud).
    rewrite ticks_last.
    destruct (useFrame_final (fst (frames K)) (snd (frames K)) _ Ht)
      as (_ & Ht' & Hc' & Hp' & _).
    - rewrite Hp, Hprog; exact Hfin.
    - rewrite Hp, Hprog in Hp'. rewrite Hud in Hc'. auto. }
  intros k Hk.
  replace k with ((k - S K) + S K)%nat by lia.
  generalize (k - S K)%nat as d; clear k Hk.
  induction d as [|d IH]; [exact Hat|].
  cbn [Nat.add]; rewrite ticks_last.
  destruct IH as (Ht & Hp & Hc).
  destruct (useFrame_idle (fst (frames (d + S K)%nat))
              (snd (frames (d + S K)%nat)) _ Ht) as (Ht' & Hp' & Hc' & _).
  repeat split; congruence.
Qed.

(** *** The length of the particle array *)

Lemma applyPattern_fold_length pts indices (arrs : Float32Array * Float32Array) :
  length (fst (fold_left (fun acc j => applyPattern_body pts j acc)
                 indices arrs))
  = length (fst arrs).
Proof.
  revert arrs; induction indices as [|j rest IH]; intro arrs; [reflexivity|].
  cbn [fold_left]; rewrite IH.
  unfold applyPattern_body; cbn [fst]; apply store3_length.
Qed.

Lemma applyPattern_length i rnd st :
  length (particleArr (fst (applyPattern knot i rnd st)))
  = length (particleArr st).
Proof.
  unfold applyPattern.
  destruct (call_pattern _ _ _ _) as [pts| |]; cbn [fst];
    [|reflexivity|reflexivity].
  rewrite for_loop_plain; cbn [particleArr fst].
  apply (applyPattern_fold_length pts _ (particleArr st, sparkleArr st)).
Qed.

Lemma useFrame_length t delta st :
  length (particleArr (useFrame t delta st)) = length (particleArr st).
Proof.
  destruct (isTrans st) eqn:Ht.
  - destruct (useFrame_transition t delta st Ht) as (_ & _ & _ & _ & ->).
    now rewrite length_map, length_seq.
  - destruct (useFrame_idle t delta st Ht) as (_ & _ & _ & _ & ->).
    reflexivity.
Qed.

Lemma reachable_length st :
  reachable knot st -> length (particleArr st) = (PARTICLE_COUNT * 3)%nat.
Proof.
  induction 1 as [|ev st Hst IH].
  - apply repeat_length.
  - destruct ev as [rnd|rnd|t delta]; cbn [step].
    + now rewrite applyPattern_length.
    + now destruct (triggerMorph_arrays knot rnd st) as [-> _].
    + now rewrite useFrame_length.
Qed.

End Controller.

(** ** The Normalizer in exact arithmetic *)

Module ExactNormalise.
Import ExactBox.
Local Open Scope R_scope.

Lemma vec_eq (a b : @THREE.Vector3 Exact) :
  THREE.x a = THREE.x b -> THREE.y a = THREE.y b -> THREE.z a = THREE.z b ->
  a = b.
Proof. destruct a, b; cbn; intros; subst; reflexivity. Qed.

Lemma half : @dec Exact 5 1 = 1 / 2.
Proof. unfold dec; exact_arith; cbn; lra. Qed.

Lemma one_is_one : @of_nat Exact 1 = 1.
Proof. reflexivity. Qed.

Lemma Rmin_scale a b c k :
  0 <= k -> Rmin ((a - c) * k) ((b - c) * k) = (Rmin a b - c) * k.
Proof.
  intro Hk; unfold Rmin.
  destruct (Rle_dec a b) as [Hab|Hab];
    destruct (Rle_dec ((a - c) * k) ((b - c) * k)) as [H|H];
    try reflexivity; nra.
Qed.

Lemma Rmax_scale a b c k :
  0 <= k -> Rmax ((a - c) * k) ((b - c) * k) = (Rmax a b - c) * k.
Proof.
  intro Hk; unfold Rmax.
  destruct (Rle_dec a b) as [Hab|Hab];
    destruct (Rle_dec ((a - c) * k) ((b - c) * k)) as [H|H];
    try reflexivity; nra.
Qed.

Lemma Rmax_mult a b k : 0 <= k -> Rmax (a * k) (b * k) = Rmax a b * k.
Proof.
  intro Hk; unfold Rmax.
  destruct (Rle_dec a b) as [Hab|Hab];
    destruct (Rle_dec (a * k) (b * k)) as [H|H];
    try reflexivity; nra.
Qed.

(** *** The bounding box *)

Lemma expand_recentre (c : @THREE.Vector3 Exact) (k : R)
  (b : @THREE.Box3 Exact) (p : @THREE.Vector3 Exact) :
  0 <= k ->
  THREE.expandByPoint (box_map (recentre (N:=Exact) c k) b) (recentre (N:=Exact) c k p)
  = box_map (recentre (N:=Exact) c k) (THREE.expandByPoint b p).
Proof.
  intro Hk; destruct b as [|lo hi]; cbn [box_map THREE.expandByPoint].
  - reflexivity.
  - f_equal; apply vec_eq; vec_simpl;
      auto using Rmin_scale, Rmax_scale.
Qed.

(** The bounding box of the recentred and scaled points is the recentred
    and scaled bounding box. *)
Lemma setFromPoints_recentre (c : @THREE.Vector3 Exact) (k : R)
  (pts : list (@THREE.Vector3 Exact)) :
  0 <= k ->
  THREE.setFromPoints (map (recentre (N:=Exact) c k) pts)
  = box_map (recentre (N:=Exact) c k) (THREE.setFromPoints pts).
Proof.
  intro Hk; unfold THREE.setFromPoints.
  change (@THREE.EmptyBox Exact)
    with (box_map (recentre (N:=Exact) c k) (@THREE.EmptyBox Exact)) at 1.
  generalize (@THREE.EmptyBox Exact) as b.
  induction pts as [|p pts IH]; intro b; cbn [map fold_left].
  - reflexivity.
  - rewrite expand_recentre by exact Hk. apply IH.
Qed.

Lemma expand_well_formed (b : @THREE.Box3 Exact) p :
  well_formed b -> well_formed (THREE.expandByPoint b p).
Proof.
  destruct b as [|lo hi]; cbn [well_formed THREE.expandByPoint].
  - intros _; vec_simpl; lra.
  - vec_simpl. intros (Hx & Hy & Hz).
    repeat split;
      (eapply Rle_trans; [apply Rmin_l|];
       eapply Rle_trans; [|apply Rmax_l]; assumption).
Qed.

Lemma expand_contains (b : @THREE.Box3 Exact) p :
  contains (THREE.expandByPoint b p) p
  /\ (forall q, contains b q -> contains (THREE.expandByPoint b p) q).
Proof.
  destruct b as [|lo hi]; cbn [contains THREE.expandByPoint].
  - split; [vec_simpl; lra|intros q []].
  - split.
    + vec_simpl; repeat split; auto using Rmin_r, Rmax_r.
    + intros q ((Hx & Hy & Hz) & (Hx' & Hy' & Hz')); vec_simpl.
      repeat split;
        solve [eapply Rle_trans; [apply Rmin_l|]; assumption
              |eapply Rle_trans; [|apply Rmax_l]; assumption].
Qed.

Lemma fold_expand_props (pts : list (@THREE.Vector3 Exact)) :
  forall b, well_formed b ->
  let b' := fold_left THREE.expandByPoint pts b in
  well_formed b'
  /\ (forall q, contains b q -> contains b' q)
  /\ (forall q, In q pts -> contains b' q).
Proof.
  induction pts as [|p pts IH]; intros b Hb; cbn [fold_left].
  - repeat split; [exact Hb|auto|intros q []].
  - destruct (IH (THREE.expandByPoint b p) (expand_well_formed b p Hb))
      as (Hwf & Hmono & Hin).
    destruct (expand_contains b p) as (Hp & Hq).
    repeat split; [exact Hwf|auto|].
    intros q [<-|Hq']; auto.
Qed.

(** The bounding box of a non-empty point set is a box that contains
    every point. *)
Lemma setFromPoints_box (pts : list (@THREE.Vector3 Exact)) :
  pts <> [] ->
  exists lo hi,
    THREE.setFromPoints pts = THREE.Box lo hi
    /\ le3 lo hi
    /\ (forall q, In q pts -> le3 lo q /\ le3 q hi).
Proof.
  destruct pts as [|p pts]; [congruence|intros _].
  unfold THREE.setFromPoints; cbn [fold_left THREE.expandByPoint].
  assert (Hpp : contains (THREE.Box p p) p)
    by (cbn [contains]; vec_simpl; lra).
  destruct (fold_expand_props pts (THREE.Box p p)) as (Hwf & Hmono & Hin).
  { cbn [well_formed]; vec_simpl; lra. }
  apply Hmono in Hpp.
  destruct (fold_left THREE.expandByPoint pts (THREE.Box p p)) as [|lo hi].
  - destruct Hpp.
  - exists lo, hi; split; [reflexivity|]; split; [exact Hwf|].
    intros q [<-|Hq]; [exact Hpp|exact (Hin q Hq)].
Qed.

(** *** Size, centre and extent *)

Lemma box_not_empty (lo hi : @THREE.Vector3 Exact) :
  le3 lo hi -> THREE.isEmpty (THREE.Box lo hi) = false.
Proof.
  intros (Hx & Hy & Hz); unfold THREE.isEmpty; exact_arith.
  unfold Real.ltb.
  repeat (destruct (Rlt_dec _ _); [lra|]); reflexivity.
Qed.

Lemma getSize_box (lo hi : @THREE.Vector3 Exact) :
  le3 lo hi -> THREE.getSize (THREE.Box lo hi) = THREE.sub3 hi lo.
Proof.
  intro H; unfold THREE.getSize; now rewrite box_not_empty.
Qed.

Lemma getCenter_box (lo hi : @THREE.Vector3 Exact) :
  le3 lo hi ->
  THREE.getCenter (THREE.Box lo hi)
  = THREE.multiplyScalar (THREE.addVectors lo hi) (1 / 2).
Proof.
  intro H; unfold THREE.getCenter; now rewrite box_not_empty, half.
Qed.


Lemma spread_nonneg lo hi : le3 lo hi -> 0 <= spread lo hi.
Proof.
  intros (Hx & Hy & Hz); unfold spread.
  eapply Rle_trans; [|apply Rmax_l].
  eapply Rle_trans; [|apply Rmax_l]. lra.
Qed.

(** A box of extent zero is a single point. *)
Lemma spread_zero lo hi : le3 lo hi -> spread lo hi = 0 -> lo = hi.
Proof.
  intros (Hx & Hy & Hz) E; unfold spread in E.
  pose proof (Rmax_l (Rmax (THREE.x hi - THREE.x lo) (THREE.y hi - THREE.y lo))
                     (THREE.z hi - THREE.z lo)).
  pose proof (Rmax_r (Rmax (THREE.x hi - THREE.x lo) (THREE.y hi - THREE.y lo))
                     (THREE.z hi - THREE.z lo)).
  pose proof (Rmax_l (THREE.x hi - THREE.x lo) (THREE.y hi - THREE.y lo)).
  pose proof (Rmax_r (THREE.x hi - THREE.x lo) (THREE.y hi - THREE.y lo)).
  apply vec_eq; lra.
Qed.

Lemma spread_recentre (c lo hi : @THREE.Vector3 Exact) k :
  0 <= k ->
  spread (recentre (N:=Exact) c k lo) (recentre (N:=Exact) c k hi)
  = spread lo hi * k.
Proof.
  intro Hk; unfold spread; vec_simpl.
  rewrite <- !Rmax_mult by exact Hk.
  f_equal; [f_equal|]; ring.
Qed.

Lemma le3_recentre (c lo hi : @THREE.Vector3 Exact) k :
  0 <= k -> le3 lo hi ->
  le3 (recentre (N:=Exact) c k lo) (recentre (N:=Exact) c k hi).
Proof. intros Hk (Hx & Hy & Hz); vec_simpl; repeat split; nra. Qed.

(** [maxDim]: the extent, or 1 when the extent is zero. *)
Lemma or_default_extent e :
  0 <= e ->
  0 < or_default (N:=Exact) e (of_nat 1)
  /\ (e <> 0 -> or_default (N:=Exact) e (of_nat 1) = e)
  /\ (e = 0 -> or_default (N:=Exact) e (of_nat 1) = 1).
Proof.
  intro He; unfold or_default; exact_arith; unfold Real.truthy.
  destruct (Req_dec_T e 0) as [E|E]; cbn; repeat split; intros; lra.
Qed.

(** [normalise] on a non-empty point set, with its box made explicit. *)
Lemma normalise_box (pts : list (@THREE.Vector3 Exact)) (s : R) lo hi :
  THREE.setFromPoints pts = THREE.Box lo hi -> le3 lo hi ->
  normalise pts s
  = map (recentre (N:=Exact)
           (THREE.multiplyScalar (THREE.addVectors lo hi) (1 / 2))
           (s / or_default (N:=Exact) (spread lo hi) (of_nat 1)))
        pts.
Proof.
  intros E H.
  destruct pts as [|p pts]; [discriminate E|].
  unfold normalise.
  rewrite E, getSize_box, getCenter_box by exact H.
  reflexivity.
Qed.

(** *** The extent of the result *)


(** *** A single repeated point *)



(** *** Normalising twice *)


(** *** Worked examples *)





End ExactNormalise.

(** ** The controller in exact arithmetic *)

Module ExactController.
Import ExactNormalise.
Local Open Scope R_scope.

Lemma morphSpeed_value : @morphSpeed Exact = 3 / 100.
Proof.
  unfold morphSpeed, dec; exact_arith.
  rewrite !INR_IZR_INZ; cbn; lra.
Qed.

Lemma progress_after_value (k : nat) (p : R) :
  @progress_after Exact k p = p + INR k * (3 / 100).
Proof.
  revert p; induction k as [|k IH]; intro p.
  - cbn; lra.
  - cbn [progress_after]; rewrite IH; exact_arith.
    rewrite morphSpeed_value, S_INR; lra.
Qed.

Lemma geb_false a b : a < b -> Real.geb a b = false.
Proof. intro H; unfold Real.geb; destruct (Rle_dec b a); [lra|reflexivity]. Qed.

Lemma geb_true a b : b <= a -> Real.geb a b = true.
Proof. intro H; unfold Real.geb; destruct (Rle_dec b a); [reflexivity|lra]. Qed.

(** From progress 0 the first 33 ticks stay below 1 and the 34th is at
    or above it. *)
Lemma schedule_running (j : nat) :
  (j < 33)%nat ->
  @geb Exact (progress_after (S j) (of_nat 0)) (of_nat 1) = false.
Proof.
  intro Hj; rewrite progress_after_value; exact_arith; apply geb_false.
  assert (H : INR (S j) <= INR 33) by (apply le_INR; lia).
  rewrite (INR_IZR_INZ 33) in H; change (Z.of_nat 33) with 33%Z in H.
  change (INR 0) with 0; change (INR 1) with 1; lra.
Qed.

Lemma schedule_finished :
  @geb Exact (progress_after 34 (of_nat 0)) (of_nat 1) = true.
Proof.
  rewrite progress_after_value; exact_arith; apply geb_true.
  rewrite (INR_IZR_INZ 34); change (Z.of_nat 34) with 34%Z.
  change (INR 0) with 0; change (INR 1) with 1; lra.
Qed.

(** Draws from [0, 1) give indices in range. *)
Lemma draws_in_unit_interval (rnd : RandomSource (N:=Exact)) :
  (forall k, 0 <= rnd k < 1) -> draws_in_range rnd.
Proof.
  intros Hrnd k len Hlen; exact_arith.
  specialize (Hrnd k).
  set (v := rnd k * INR len).
  assert (Hv : 0 <= v < INR len).
  { assert (0 < INR len) by (apply lt_0_INR; exact Hlen).
    unfold v; split; nra. }
  pose proof (base_Int_part v) as [Hlo Hhi].
  unfold Real.floor, Real.array_index.
  assert (Hint : Int_part (IZR (Int_part v)) = Int_part v).
  { symmetry; apply Int_part_spec; lra. }
  rewrite Hint.
  destruct (Req_dec_T _ _) as [_|Hne]; [|congruence].
  assert (Hnn : (0 <= Int_part v)%Z).
  { apply le_IZR. destruct (Z_le_gt_dec 0 (Int_part v)) as [H|H].
    - now apply IZR_le.
    - exfalso. assert (IZR (Int_part v) <= -1) by (apply IZR_le; lia). lra. }
  destruct (Rle_dec 0 (IZR (Int_part v))) as [_|Hneg];
    [|exfalso; apply Hneg; now apply IZR_le].
  eexists; split; [reflexivity|].
  assert (Hlt : (Int_part v < Z.of_nat len)%Z).
  { apply lt_IZR. rewrite <- INR_IZR_INZ. lra. }
  lia.
Qed.

(** The interpolated value with an eased value of 1 is the target. *)
Lemma lerp_one (from to : Float32Array (N:=Exact)) (i : nat) d :
  (i < length from)%nat -> (i < length to)%nat ->
  lerp from to (of_nat 1) i = nth i to d.
Proof.
  intros Hf Ht; unfold lerp, load.
  destruct (nth_error from i) as [f|] eqn:Ef;
    [|apply nth_error_None in Ef; lia].
  destruct (nth_error to i) as [t|] eqn:Et;
    [|apply nth_error_None in Et; lia].
  rewrite (nth_error_nth _ _ d Et).
  cbn [to_number]; exact_arith; cbn; lra.
Qed.

Lemma final_write (from to : Float32Array (N:=Exact)) :
  length from = length to ->
  map (fun i => Math_fround (lerp from to (of_nat 1) i)) (seq 0 (length to))
  = to.
Proof.
  intro Hlen.
  apply (nth_ext _ _ 0 0).
  - now rewrite length_map, length_seq.
  - intros i Hi. rewrite length_map, length_seq in Hi.
    rewrite (nth_indep _ 0 (Math_fround (lerp from to (of_nat 1) 0)))
      by (now rewrite length_map, length_seq).
    rewrite (map_nth (fun i => Math_fround (lerp from to (of_nat 1) i))).
    rewrite seq_nth by exact Hi. cbn [Nat.add Math_fround Exact].
    apply lerp_one; lia.
Qed.

End ExactController.

(** ** The controller in IEEE-754 arithmetic *)

Module F64Controller.

Section WithLibrary.
Variable M : F64.MathLib.

Lemma below (P : nat -> bool) (n : nat) :
  forallb P (seq 0 n) = true -> forall j, j < n -> P j = true.
Proof.
  intros H j Hj. rewrite forallb_forall in H. apply H, in_seq; lia.
Qed.

(** The first 33 ticks stay below 1, each above the one before ... *)
Lemma binary64_schedule_running j :
  j < 33 ->
  @geb (Float64 M) (progress_after (S j) (of_nat 0)) (of_nat 1) = false.
Proof.
  intro Hj.
  apply (below (fun j => negb (PrimFloat.leb PrimFloat.one (progress64 M (S j))))
               (n := 33)) in Hj; [|vm_compute; reflexivity].
  apply negb_true_iff in Hj; exact Hj.
Qed.

(** ... and the 34th is above 1: the progress is [1.0200000000000007]. *)
Lemma binary64_schedule_finished :
  @geb (Float64 M) (progress_after 34 (of_nat 0)) (of_nat 1) = true.
Proof. vm_compute; reflexivity. Qed.

Lemma progress_overshoots : PrimFloat.ltb PrimFloat.one (progress64 M 34) = true.
Proof. vm_compute; reflexivity. Qed.

Lemma progress_increases k :
  k < 34 ->
  PrimFloat.ltb (progress64 M k) (progress64 M (S k)) = true
  /\ PrimFloat.ltb (progress64 M k) PrimFloat.one = true.
Proof.
  intro Hk.
  apply (below (fun k => PrimFloat.ltb (progress64 M k) (progress64 M (S k))
                         && PrimFloat.ltb (progress64 M k) PrimFloat.one)
               (n := 34)) in Hk; [|vm_compute; reflexivity].
  apply andb_true_iff in Hk; exact Hk.
Qed.

(** No value of the progress is 1. *)
Lemma progress_never_one k : k <= 34 -> progress64 M k <> PrimFloat.one.
Proof.
  intros Hk Heq.
  assert (Hlt : k < 35) by lia.
  apply (below (fun k => negb (PrimFloat.eqb (progress64 M k) PrimFloat.one))
               (n := 35)) in Hlt; [|vm_compute; reflexivity].
  rewrite Heq in Hlt; vm_compute in Hlt; discriminate.
Qed.

(** The last write of the sample transition: [10 + (2^-52 - 10) * 1] is
    0 in binary64, because [2^-52 - 10] rounds to [-10]. *)
Lemma last_write_rounds :
  Math_fround (Number := Float64 M)
    (lerp (N := Float64 M) [10%float] [0x1p-52%float] (of_nat 1) 0)
  = PrimFloat.zero.
Proof. vm_compute; reflexivity. Qed.

End WithLibrary.

End F64Controller.

(* ================================================================== *)
(** * Part III.  The properties of the specification                   *)
(* ================================================================== *)

(** ** Pattern generators *)

(** Claim C1 (fails on the code).  The specification requires that no
    generator throws for any N >= 1 and that padding always has a point
    to copy.  [halvorsen] collects its first point at loop index 225, so
    for every N from 1 to 9 the loop of [N * 25] iterations collects
    nothing, the padding loop loads [pts[0]] from the empty array and the
    call of [clone] on [undefined] throws, whatever [Math.random]
    returns. *)
Theorem halvorsen_pads_from_nothing :
  forall N : Number,
    Forall (fun n => forall rnd : RandomSource,
                       halvorsen n rnd = Throw TypeError)
           (seq 1 9).
Proof.
  intro N; apply Forall_forall; intros n Hn rnd.
  apply in_seq in Hn. apply halvorsen_small; lia.
Qed.

(** Claim C4 (fails on the code).  How many points each generator
    returns: [dualHelix] and [deJong] return exactly [n] for every [n],
    [torusKnot] does when the knot geometry has a vertex, and
    [halvorsen], for a random source that draws from [0, 1), returns
    exactly [n] points if and only if [n] is 0 or at least 10; it
    returns no point set for [n] from 1 to 9. *)
Theorem generators_point_count :
  forall (N : Number) (knot : list THREE.Vector3) (n : nat)
         (rnd : RandomSource),
    (exists pts, dualHelix n = Normal pts /\ length pts = n)
    /\ (exists pts, deJong n = Normal pts /\ length pts = n)
    /\ (knot <> [] ->
        exists pts, torusKnot knot n = Normal pts /\ length pts = n)
    /\ (draws_in_range rnd ->
        ((exists pts, halvorsen n rnd = Normal pts /\ length pts = n)
         <-> n = 0 \/ 10 <= n)).
Proof.
  intros N knot n rnd.
  split; [apply dualHelix_count|].
  split; [apply deJong_count|].
  split; [apply torusKnot_count|].
  intro Hrnd; split.
  - intros (pts & Hpts & _).
    destruct (Nat.eq_dec n 0) as [->|Hn0]; [now left|].
    destruct (le_lt_dec 10 n) as [Hn|Hn]; [now right|].
    rewrite halvorsen_small in Hpts by lia; discriminate.
  - intros [->|Hn].
    + exists []; split; [apply halvorsen_zero|reflexivity].
    + now apply halvorsen_large.
Qed.

(** ** Normalizer *)

(** Claim C10.  The Normalizer returns the empty point set for the empty
    point set: the guard [points.length === 0] returns before any box is
    computed. *)
Theorem normalise_empty :
  forall (N : Number) (size : num), normalise [] size = [].
Proof. reflexivity. Qed.






(** ** Particle buffers *)

(** Claim C2.  In every state the component can reach, and for every
    tick, whether or not a transition is active, the sparkle array after
    the tick is the first [SPARK_COUNT * 3] coordinates of the particle
    array after the tick. *)
Theorem sparkles_mirror_particles :
  forall (N : Number) (knot : list THREE.Vector3) (st : State)
         (t delta : num),
    reachable knot st ->
    sparkleArr (useFrame t delta st)
    = firstn (SPARK_COUNT * 3) (particleArr (useFrame t delta st))
    /\ length (sparkleArr (useFrame t delta st)) = SPARK_COUNT * 3.
Proof.
  intros N knot st t delta Hst.
  assert (Hnext : reachable knot (useFrame t delta st))
    by exact (reachable_step (Frame t delta) Hst).
  pose proof (mirrored_reachable Hnext) as Hm; unfold mirrored in Hm.
  split; [exact Hm|].
  rewrite Hm, length_firstn, (reachable_length Hnext).
  pose proof constants_ordered; lia.
Qed.

Lemma sparkles_mirror_particles_witness :
  reachable (N:=Exact) [] initial
  /\ sparkleArr (useFrame (N:=Exact) 0%R 0%R initial)
     = firstn (SPARK_COUNT * 3)
         (particleArr (useFrame (N:=Exact) 0%R 0%R initial)).
Proof.
  split; [apply reachable_initial|].
  exact (proj1 (@sparkles_mirror_particles Exact [] initial 0%R 0%R
                  (reachable_initial []))).
Defined.

(** ** Morph controller *)

(** Claim C9.  A trigger received while a transition is active returns
    at once and leaves the whole state as it is, [from], [to], [next]
    and the progress included; the ticks that follow are those of the
    transition in flight. *)
Theorem trigger_while_transitioning :
  forall (N : Number) (knot : list THREE.Vector3) (rnd : RandomSource)
         (st : State),
    isTrans st = true ->
    triggerMorph knot rnd st = (st, Normal tt)
    /\ forall k frames,
         ticks k frames (fst (triggerMorph knot rnd st)) = ticks k frames st.
Proof.
  intros N knot rnd st Htrans.
  rewrite (triggerMorph_busy knot rnd st Htrans).
  split; reflexivity.
Qed.

Lemma trigger_while_transitioning_witness :
  isTrans Samples.ending = true
  /\ triggerMorph [] Samples.draw_zero Samples.ending
     = (Samples.ending, Normal tt).
Proof.
  assert (H : isTrans Samples.ending = true) by reflexivity.
  split; [exact H|].
  exact (proj1 (@trigger_while_transitioning Exact [] Samples.draw_zero
                  Samples.ending H)).
Defined.

(** Claim C3 as stated fails in the arithmetic the program runs on.  One
    tick before the end of a transition that moves every coordinate from
    10 to [2^-52], the last tick computes [10 + (2^-52 - 10) * 1]: the
    difference rounds to [-10] in binary64 and the coordinate written
    is 0, not [2^-52].  This holds for every math library. *)
Lemma endpoint_rounds_in_binary64 :
  ~ (exists M : F64.MathLib, endpoint_exact (N := Float64 M)).
Proof.
  intros [M Hexact].
  pose (z := PrimFloat.zero : @num (Float64 M)).
  assert (Htrans : isTrans (Samples.last_tick M) = true) by reflexivity.
  assert (Hfin : @geb (Float64 M)
                   (@add (Float64 M) (prog (Samples.last_tick M)) morphSpeed)
                   (of_nat 1)
                 = true)
    by exact (F64Controller.binary64_schedule_finished M).
  assert (Hf32 : forall c : float,
            F64.fround c = c ->
            forall n, Forall (fun v : @num (Float64 M) => Math_fround v = v)
                             (repeat c n)).
  { intros c Hc n; apply Forall_forall; intros v Hv.
    apply repeat_spec in Hv; subst v; exact Hc. }
  assert (Hend : particleArr (useFrame z z (Samples.last_tick M))
                 = to (userData (Samples.last_tick M))).
  { apply Hexact; try assumption; try reflexivity.
    - apply Hf32; vm_compute; reflexivity.
    - apply Hf32; vm_compute; reflexivity. }
  destruct (@useFrame_final (Float64 M) z z (Samples.last_tick M) Htrans Hfin)
    as (_ & _ & _ & _ & Hwrite).
  rewrite Hwrite in Hend; clear Hwrite Hexact.
  unfold Samples.last_tick in Hend;
    cbn [particleArr userData from to] in Hend.
  rewrite repeat_length in Hend.
  pose proof PARTICLE_COUNT_large as Hlarge.
  destruct PARTICLE_COUNT as [|n]; [lia|].
  cbn [Nat.mul Nat.add repeat seq map] in Hend.
  apply (f_equal (fun l : list float => hd PrimFloat.zero l)) in Hend.
  cbn [hd] in Hend; rename Hend into Hhead.
  assert (Hzero : @Math_fround (Float64 M)
                    (lerp (N := Float64 M)
                       (10%float :: 10%float :: 10%float
                          :: repeat 10%float (n * 3))
                       (0x1p-52%float :: 0x1p-52%float :: 0x1p-52%float
                          :: repeat 0x1p-52%float (n * 3))
                       (of_nat 1) 0)
                  = PrimFloat.zero)
    by exact (F64Controller.last_write_rounds M).
  rewrite Hzero in Hhead.
  apply (f_equal (fun v => PrimFloat.eqb v PrimFloat.zero)) in Hhead.
  vm_compute in Hhead; discriminate.
Qed.

(** Claim C3 (amended).  At the tick at which the progress reaches or
    exceeds 1 the eased value is exactly 1 and the transition ends; every
    coordinate [i] of the particle array is written with
    [from[i] + (to[i] - from[i]) * 1], rounded as the array stores it.
    In exact arithmetic that value is [to[i]], so the particle array
    equals [to]. *)
Theorem morph_endpoint :
  (forall (N : Number) (st : State) (t delta : num),
     isTrans st = true ->
     (prog st + morphSpeed >=? of_nat 1)%js = true ->
     ease (prog st + morphSpeed)%js = of_nat 1
     /\ isTrans (useFrame t delta st) = false
     /\ particleArr (useFrame t delta st)
        = map (fun i => Math_fround
                          (lerp (from (userData st)) (to (userData st))
                                (of_nat 1) i))
              (seq 0 (length (particleArr st))))
  /\ endpoint_exact (N := Exact).
Proof.
  split.
  - intros N st t delta Htrans Hfin.
    destruct (useFrame_final t delta st Htrans Hfin)
      as (He & Ht & _ & _ & Ha).
    auto.
  - intros st t delta Htrans Hfin Hfrom Hto _ _.
    destruct (useFrame_final t delta st Htrans Hfin)
      as (_ & _ & _ & _ & ->).
    rewrite <- Hto.
    apply ExactController.final_write; congruence.
Qed.

Lemma morph_endpoint_witness :
  isTrans Samples.ending = true
  /\ particleArr (useFrame (N:=Exact) 0%R 0%R Samples.ending)
     = to (userData Samples.ending).
Proof.
  assert (Htrans : isTrans Samples.ending = true) by reflexivity.
  split; [exact Htrans|].
  apply (proj2 morph_endpoint Samples.ending 0%R 0%R Htrans).
  - apply ExactController.geb_true.
    rewrite ExactController.morphSpeed_value.
    unfold Samples.ending; cbn [prog of_nat add Exact].
    change (INR 1) with 1%R; lra.
  - reflexivity.
  - reflexivity.
  - apply Forall_forall; reflexivity.
  - apply Forall_forall; reflexivity.
Defined.




Lemma progress_after_S (N : Number) (k : nat) (p : num) :
  progress_after (S k) p = (progress_after k p + morphSpeed)%js.
Proof.
  revert p; induction k as [|k IH]; intro p; [reflexivity|].
  cbn [progress_after] in *; apply IH.
Qed.

(** The progress of a transition in IEEE-754 arithmetic, tick by tick. *)
Lemma progress_course (M : F64.MathLib) (knot : list THREE.Vector3)
  (rnd : RandomSource (N:=Float64 M))
  (frames : nat -> @num (Float64 M) * @num (Float64 M))
  (st : State (N:=Float64 M)) :
  isTrans st = false ->
  (forall k, k <= 33 ->
     isTrans (ticks k frames (fst (triggerMorph knot rnd st))) = true
     /\ prog (ticks k frames (fst (triggerMorph knot rnd st)))
        = progress64 M k)
  /\ (forall k, 33 < k ->
     isTrans (ticks k frames (fst (triggerMorph knot rnd st))) = false
     /\ prog (ticks k frames (fst (triggerMorph knot rnd st)))
        = progress64 M 34).
Proof.
  intro Hidle.
  destruct (triggerMorph_starts knot rnd st Hidle) as (Htrans & Hp0 & _).
  set (st1 := fst (triggerMorph knot rnd st)) in *.
  destruct (@ticks_schedule (Float64 M) 33 frames st1 Htrans)
    as (Hbefore & Hafter).
  - intros j Hj; rewrite Hp0; exact (F64Controller.binary64_schedule_running M Hj).
  - rewrite Hp0; exact (F64Controller.binary64_schedule_finished M).
  - rewrite Hp0 in Hbefore, Hafter. split.
    + intros k Hk; destruct (Hbefore k Hk); auto.
    + intros k Hk; destruct (Hafter k Hk) as (? & ? & _); auto.
Qed.

(** Claim C6 as stated fails: in the arithmetic the program runs on, no
    math library makes the progress take the value 1 within 34 ticks of
    a trigger.  The progress goes from [0.99000000000000066] at tick 33
    to [1.0200000000000007] at tick 34. *)
Lemma progress_skips_one :
  ~ (exists M : F64.MathLib, reaches_one (N := Float64 M)).
Proof.
  intros [M Hreach].
  destruct (Hreach [] (Samples.draw_half64 M) (Samples.still_frames64 M)
              initial eq_refl) as (k & Hk & Hone).
  destruct (@progress_course M [] (Samples.draw_half64 M)
              (Samples.still_frames64 M) initial eq_refl)
    as (Hbefore & Hafter).
  destruct (le_lt_dec k 33) as [Hle|Hgt].
  - destruct (Hbefore k Hle) as (_ & Hp). rewrite Hp in Hone.
    exact (F64Controller.progress_never_one M Hk Hone).
  - destruct (Hafter k Hgt) as (_ & Hp). rewrite Hp in Hone.
    exact (@F64Controller.progress_never_one M 34 (le_n 34) Hone).
Qed.

(** Claim C6 (amended).  In the arithmetic the program runs on, after a
    trigger received while idle: during each of the first 34 ticks the
    transition is active and the tick adds the fixed step [morphSpeed]
    to the progress, whatever the frame's delta, so the progress
    strictly increases and is below 1 before each of these ticks; the
    34th tick takes it above 1 (to [1.0200000000000007], never to 1
    itself) and ends the transition; later ticks leave it there. *)
Theorem progress_monotone_and_bounded :
  forall (M : F64.MathLib) (knot : list THREE.Vector3)
         (rnd : RandomSource (N:=Float64 M))
         (frames : nat -> @num (Float64 M) * @num (Float64 M))
         (st : State (N:=Float64 M)),
    isTrans st = false ->
    (forall k, k < 34 ->
       isTrans (ticks k frames (fst (triggerMorph knot rnd st))) = true
       /\ prog (ticks (S k) frames (fst (triggerMorph knot rnd st)))
          = PrimFloat.add
              (prog (ticks k frames (fst (triggerMorph knot rnd st))))
              (morphSpeed (N:=Float64 M))
       /\ PrimFloat.ltb
            (prog (ticks k frames (fst (triggerMorph knot rnd st))))
            (prog (ticks (S k) frames (fst (triggerMorph knot rnd st))))
          = true
       /\ PrimFloat.ltb
            (prog (ticks k frames (fst (triggerMorph knot rnd st))))
            PrimFloat.one
          = true)
    /\ PrimFloat.ltb PrimFloat.one
         (prog (ticks 34 frames (fst (triggerMorph knot rnd st)))) = true
    /\ isTrans (ticks 34 frames (fst (triggerMorph knot rnd st))) = false
    /\ (forall k, 34 <= k ->
          prog (ticks k frames (fst (triggerMorph knot rnd st)))
          = prog (ticks 34 frames (fst (triggerMorph knot rnd st))))
    /\ (forall k,
          prog (ticks k frames (fst (triggerMorph knot rnd st)))
          <> PrimFloat.one).
Proof.
  intros M knot rnd frames st Hidle.
  destruct (@progress_course M knot rnd frames st Hidle)
    as (Hbefore & Hafter).
  assert (Hprog : forall k, k <= 34 ->
            prog (ticks k frames (fst (triggerMorph knot rnd st)))
            = progress64 M k).
  { intros k Hk. destruct (le_lt_dec k 33) as [Hle|Hgt].
    - now destruct (Hbefore k Hle).
    - assert (k = 34) by lia; subst k. now destruct (Hafter 34 Hgt). }
  split; [|split; [|split; [|split]]].
  - intros k Hk.
    destruct (Hbefore k ltac:(lia)) as (Ht & _).
    rewrite (Hprog k ltac:(lia)), (Hprog (S k) ltac:(lia)).
    destruct (F64Controller.progress_increases M Hk) as (Hinc & Hlt).
    repeat split; try assumption.
    unfold progress64; exact (progress_after_S (Float64 M) k PrimFloat.zero).
  - rewrite (Hprog 34 (le_n 34)).
    exact (F64Controller.progress_overshoots M).
  - now destruct (Hafter 34 ltac:(lia)).
  - intros k Hk. destruct (Hafter k ltac:(lia)) as (_ & ->).
    now destruct (Hafter 34 ltac:(lia)) as (_ & ->).
  - intros k Hone. destruct (le_lt_dec k 33) as [Hle|Hgt].
    + rewrite (Hprog k ltac:(lia)) in Hone.
      exact (@F64Controller.progress_never_one M k ltac:(lia) Hone).
    + destruct (Hafter k Hgt) as (_ & Hp). rewrite Hp in Hone.
      exact (@F64Controller.progress_never_one M 34 (le_n 34) Hone).
Qed.

Lemma progress_monotone_and_bounded_witness :
  isTrans (initial (N:=Float64 Samples.math)) = false
  /\ PrimFloat.ltb PrimFloat.one
       (prog (ticks 34 (Samples.still_frames64 Samples.math)
                (fst (triggerMorph [] (Samples.draw_half64 Samples.math)
                        initial)))) = true.
Proof.
  split; [reflexivity|].
  exact (proj1 (proj2
           (@progress_monotone_and_bounded Samples.math []
              (Samples.draw_half64 Samples.math)
              (Samples.still_frames64 Samples.math) initial eq_refl))).
Defined.

(* ================================================================== *)
(** * Part IV.  Further properties of the code                         *)
(* ================================================================== *)

(** ** Invariants of the component *)

Section Invariants.
Context {N : Number}.
Variable knot : list THREE.Vector3.

Lemma fill_to_fold_length pts indices (a : Float32Array) :
  length (fold_left (fun acc j => fill_to_body pts j acc) indices a)
  = length a.
Proof.
  revert a; induction indices as [|j rest IH]; intro a; [reflexivity|].
  cbn [fold_left]; rewrite IH. unfold fill_to_body; apply store3_length.
Qed.

Lemma sparkle_length st :
  mirrored st -> length (particleArr st) = PARTICLE_COUNT * 3 ->
  length (sparkleArr st) = SPARK_COUNT * 3.
Proof.
  unfold mirrored; intros -> Hlen.
  rewrite length_firstn, Hlen. pose proof constants_ordered; lia.
Qed.

(** A trigger changes neither the position arrays nor the current
    pattern. *)
Lemma triggerMorph_current rnd st :
  particleArr (fst (triggerMorph knot rnd st)) = particleArr st
  /\ sparkleArr (fst (triggerMorph knot rnd st)) = sparkleArr st
  /\ currentPattern (fst (triggerMorph knot rnd st)) = currentPattern st.
Proof.
  unfold triggerMorph.
  destruct (negb (isTrans st)); [|split; [|split]; reflexivity].
  destruct (call_pattern _ _ _ _) as [pts| |];
    [|split; [|split]; reflexivity..].
  rewrite for_loop_plain; split; [|split]; reflexivity.
Qed.

(** What a trigger leaves in [userData]. *)
Lemma triggerMorph_userData rnd st :
  userData (fst (triggerMorph knot rnd st)) = userData st
  \/ (from (userData (fst (triggerMorph knot rnd st))) = particleArr st
      /\ length (to (userData (fst (triggerMorph knot rnd st))))
         = PARTICLE_COUNT * 3
      /\ next (userData (fst (triggerMorph knot rnd st)))
         = (currentPattern st + 1) mod 4).
Proof.
  unfold triggerMorph.
  destruct (negb (isTrans st)); [|now left].
  destruct (call_pattern _ _ _ _) as [pts| |]; [|now left..].
  rewrite for_loop_plain; right; cbn [fst userData from to next].
  split; [reflexivity|]. split; [|reflexivity].
  rewrite fill_to_fold_length. apply repeat_length.
Qed.

Lemma well_sized_reachable st : reachable knot st -> well_sized st.
Proof.
  intro Hst; unfold well_sized.
  pose proof (reachable_length Hst) as Hlen.
  split; [exact Hlen|].
  split; [exact (sparkle_length (mirrored_reachable Hst) Hlen)|].
  induction Hst as [|ev st Hst IH].
  - left; split; reflexivity.
  - specialize (IH (reachable_length Hst)).
    destruct ev as [rnd|rnd|t delta]; cbn [step].
    + unfold applyPattern.
      destruct (call_pattern _ _ _ _) as [pts| |];
        [|exact IH|exact IH].
      rewrite for_loop_plain; exact IH.
    + destruct (triggerMorph_userData rnd st) as [->|(Hf & Ht & _)];
        [exact IH|].
      right; split; [|exact Ht].
      rewrite Hf; exact (reachable_length Hst).
    + destruct (isTrans st) eqn:Ht.
      * destruct (useFrame_transition t delta st Ht) as (_ & -> & _).
        exact IH.
      * destruct (useFrame_idle t delta st Ht) as (_ & _ & _ & -> & _).
        exact IH.
Qed.

Lemma pattern_index_reachable st :
  reachable knot st ->
  currentPattern st < 4 /\ next (userData st) < 4.
Proof.
  induction 1 as [|ev st Hst (Hc & Hn)].
  - split; cbn; lia.
  - destruct ev as [rnd|rnd|t delta]; cbn [step].
    + unfold applyPattern.
      destruct (call_pattern _ _ _ _) as [pts| |];
        [|split; assumption|split; assumption].
      rewrite for_loop_plain; split; assumption.
    + assert (Hcur : currentPattern (fst (triggerMorph knot rnd st))
                     = currentPattern st).
      { exact (proj2 (proj2 (triggerMorph_current rnd st))). }
      rewrite Hcur; split; [exact Hc|].
      destruct (triggerMorph_userData rnd st) as [->|(_ & _ & ->)];
        [exact Hn|].
      apply Nat.mod_upper_bound; lia.
    + destruct (isTrans st) eqn:Ht.
      * destruct (useFrame_transition t delta st Ht)
          as (_ & -> & _ & -> & _).
        split; [|exact Hn].
        destruct (geb _ _); assumption.
      * destruct (useFrame_idle t delta st Ht) as (_ & _ & -> & -> & _).
        split; assumption.
Qed.

Lemma rotations_reachable st :
  reachable knot st -> particles_rotation st = sparkles_rotation st.
Proof.
  induction 1 as [|ev st Hst IH].
  - reflexivity.
  - destruct ev as [rnd|rnd|t delta]; cbn [step].
    + unfold applyPattern.
      destruct (call_pattern _ _ _ _) as [pts| |];
        [|exact IH|exact IH].
      rewrite for_loop_plain; exact IH.
    + unfold triggerMorph. destruct (negb (isTrans st)); [|exact IH].
      destruct (call_pattern _ _ _ _) as [pts| |];
        [|exact IH|exact IH].
      rewrite for_loop_plain; exact IH.
    + unfold useFrame.
      destruct (isTrans st); cbn [particles_rotation sparkles_rotation];
        now rewrite IH.
Qed.

End Invariants.

(** ** The loops that copy a point set into an array *)

Section Copy.
Context {N : Number}.
Variable knot : list THREE.Vector3.

Lemma fold_left_ext_in (A B : Type) (f g : A -> B -> A) (l : list B) (a : A) :
  (forall x acc, In x l -> f acc x = g acc x) ->
  fold_left f l a = fold_left g l a.
Proof.
  revert a; induction l as [|x l IH]; intros a H; [reflexivity|].
  cbn [fold_left]. rewrite (H x a (or_introl eq_refl)).
  apply IH. intros y acc Hy; apply H; now right.
Qed.

(** The copy loop overwrites the whole array, whatever it held. *)
Lemma overwrite_fold (rest done : list THREE.Vector3)
  (pre post : Float32Array) :
  length pre = length done * 3 ->
  length post = length rest * 3 ->
  fold_left (fun a j => fill_to_body (done ++ rest) j a)
            (seq (length done) (length rest)) (pre ++ post)
  = pre ++ stored (positions rest).
Proof.
  revert done pre post; induction rest as [|r rest IH];
    intros done pre post Hpre Hpost.
  - destruct post; [reflexivity|discriminate Hpost].
  - destruct post as [|a [|b [|c post]]]; try discriminate Hpost.
    cbn [length seq fold_left].
    unfold fill_to_body at 2, point_or_zero.
    rewrite nth_error_app2, Nat.sub_diag by lia; cbn [nth_error].
    rewrite <- Hpre, store3_middle.
    specialize (IH (done ++ [r])
                  (pre ++ [Math_fround (THREE.x r); Math_fround (THREE.y r);
                           Math_fround (THREE.z r)]) post).
    rewrite <- app_assoc in IH; cbn [app] in IH.
    rewrite !length_app in IH; cbn [length] in IH.
    rewrite Nat.add_1_r in IH.
    rewrite <- app_assoc in IH; cbn [app] in IH.
    rewrite IH; [|lia|cbn [length] in Hpost; lia].
    rewrite <- app_assoc; reflexivity.
Qed.

Lemma points_read_length (pts : list THREE.Vector3) :
  length (points_read pts) = PARTICLE_COUNT.
Proof. unfold points_read; now rewrite length_map, length_seq. Qed.

Lemma point_or_zero_read (pts : list THREE.Vector3) j :
  j < PARTICLE_COUNT ->
  point_or_zero (points_read pts) j = point_or_zero pts j.
Proof.
  intro Hj; unfold point_or_zero at 1, points_read.
  rewrite nth_error_map, nth_error_seq.
  destruct (j <? PARTICLE_COUNT) eqn:E; [reflexivity|].
  apply Nat.ltb_ge in E; lia.
Qed.

(** A result of [PARTICLE_COUNT] points is read as it is. *)
Lemma points_read_all (pts : list THREE.Vector3) :
  length pts = PARTICLE_COUNT -> points_read pts = pts.
Proof.
  intro Hlen; apply (nth_ext _ _ THREE.zero3 THREE.zero3).
  - now rewrite points_read_length.
  - intros j Hj; rewrite points_read_length in Hj.
    unfold points_read.
    rewrite (nth_indep _ THREE.zero3 (point_or_zero pts 0))
      by (now rewrite length_map, length_seq).
    rewrite (map_nth (point_or_zero pts)), seq_nth by exact Hj.
    unfold point_or_zero; cbn [Nat.add].
    destruct (nth_error pts j) as [p|] eqn:E.
    + symmetry; now apply nth_error_nth.
    + apply nth_error_None in E; lia.
Qed.

(** The copy loop on any generator result and any array of the right
    length. *)
Lemma copy_loop (pts : list THREE.Vector3) (a : Float32Array) :
  length a = PARTICLE_COUNT * 3 ->
  fold_left (fun acc j => fill_to_body pts j acc) (seq 0 PARTICLE_COUNT) a
  = stored (positions (points_read pts)).
Proof.
  intro Ha.
  rewrite (fold_left_ext_in
             (fun acc j => fill_to_body pts j acc)
             (fun acc j => fill_to_body (points_read pts) j acc)).
  - pose proof (overwrite_fold (points_read pts) [] [] a eq_refl) as H.
    rewrite points_read_length in H. apply H; exact Ha.
  - intros j acc Hj; apply in_seq in Hj.
    unfold fill_to_body. now rewrite point_or_zero_read by lia.
Qed.

Lemma applyPattern_fold_fst pts indices (arrs : Float32Array * Float32Array) :
  fst (fold_left (fun acc j => applyPattern_body pts j acc) indices arrs)
  = fold_left (fun a j => fill_to_body pts j a) indices (fst arrs).
Proof.
  revert arrs; induction indices as [|j rest IH]; intro arrs;
    [reflexivity|].
  cbn [fold_left]; rewrite IH; reflexivity.
Qed.

(** [applyPattern] when the generator returns: the particle array holds
    the points read, whatever it held before. *)
Lemma applyPattern_returns i rnd st pts :
  call_pattern knot i PARTICLE_COUNT rnd = Normal pts ->
  length (particleArr st) = PARTICLE_COUNT * 3 ->
  snd (applyPattern knot i rnd st) = Normal tt
  /\ particleArr (fst (applyPattern knot i rnd st))
     = stored (positions (points_read pts)).
Proof.
  intros Hcall Hlen; unfold applyPattern; rewrite Hcall, for_loop_plain.
  cbn [fst snd particleArr]. split; [reflexivity|].
  rewrite applyPattern_fold_fst; cbn [fst].
  now apply copy_loop.
Qed.

(** [triggerMorph] while idle when the generator returns. *)
Lemma triggerMorph_returns rnd st pts :
  isTrans st = false ->
  call_pattern knot ((currentPattern st + 1) mod 4) PARTICLE_COUNT rnd
  = Normal pts ->
  snd (triggerMorph knot rnd st) = Normal tt
  /\ isTrans (fst (triggerMorph knot rnd st)) = true
  /\ prog (fst (triggerMorph knot rnd st)) = of_nat 0
  /\ from (userData (fst (triggerMorph knot rnd st))) = particleArr st
  /\ to (userData (fst (triggerMorph knot rnd st)))
     = stored (positions (points_read pts))
  /\ next (userData (fst (triggerMorph knot rnd st)))
     = (currentPattern st + 1) mod 4.
Proof.
  intros Hidle Hcall; unfold triggerMorph; rewrite Hidle; cbn [negb].
  change (length (PATTERNS knot)) with 4.
  rewrite Hcall, for_loop_plain.
  cbn [fst snd isTrans prog userData from to next].
  split; [reflexivity|]. split; [reflexivity|]. split; [reflexivity|].
  split; [reflexivity|]. split; [|reflexivity].
  apply copy_loop, repeat_length.
Qed.

(** Every entry of [PATTERNS] returns [n] points for [n >= 10], given a
    knot geometry with a vertex and draws in range. *)
Lemma call_pattern_returns i n rnd :
  knot <> [] -> draws_in_range rnd -> i < 4 -> 10 <= n ->
  exists pts, call_pattern knot i n rnd = Normal pts /\ length pts = n.
Proof.
  intros Hknot Hrnd Hi Hn.
  destruct i as [|[|[|[|i]]]]; [| | | |lia]; unfold call_pattern;
    cbn [nth_error PATTERNS].
  - now apply torusKnot_count.
  - now apply halvorsen_large.
  - apply dualHelix_count.
  - apply deJong_count.
Qed.

End Copy.

(** ** More on the generators *)

Section GeneratorShapes.
Context {N : Number}.

(** *** torusKnot: cycling through the vertices *)

Lemma torusKnot_cycle (points : list THREE.Vector3) :
  points <> [] ->
  forall indices result,
    for_range indices
      (fun i result =>
         match nth_error points (i mod length points) with
         | Some p => Normal (result ++ [p], false)
         | None => Throw TypeError
         end) result
    = Normal (result
                ++ map (fun i => nth (i mod length points) points THREE.zero3)
                       indices).
Proof.
  intros Hne; induction indices as [|i rest IH]; intro result;
    cbn [for_range map].
  - now rewrite app_nil_r.
  - assert (Hlt : i mod length points < length points).
    { apply Nat.mod_upper_bound. destruct points; [congruence|discriminate]. }
    destruct (nth_error points (i mod length points)) as [p|] eqn:Hp;
      [|apply nth_error_None in Hp; lia].
    cbn [bind snd fst]. rewrite IH, <- app_assoc; cbn [app].
    now rewrite (nth_error_nth _ _ THREE.zero3 Hp).
Qed.

Lemma torusKnot_cycles_through_vertices_aux
  (knot : list THREE.Vector3) (n : nat) :
  knot <> [] ->
  torusKnot knot n
  = Normal (normalise
              (map (fun i => nth (i mod length knot) knot THREE.zero3)
                   (seq 0 n))
              (of_nat 50)).
Proof.
  intro Hknot; unfold torusKnot, for_loop.
  rewrite (torusKnot_cycle Hknot); reflexivity.
Qed.

Lemma torusKnot_no_vertices (n : nat) :
  1 <= n -> torusKnot [] n = Throw TypeError.
Proof.
  intro Hn; unfold torusKnot, for_loop.
  destruct n as [|n]; [lia|]. cbn [seq for_range].
  destruct (0 mod length (@nil THREE.Vector3)); reflexivity.
Qed.

(** *** halvorsen: how many points the loop collects *)

Lemma is_sample_in_block (n r : nat) :
  r < 25 -> is_sample (n * 25 + r) = (8 <? n) && (r =? 0).
Proof.
  intro Hr; unfold is_sample.
  assert (Hmod : (n * 25 + r) mod 25 = r).
  { rewrite Nat.add_comm, Nat.Div0.mod_add. now apply Nat.mod_small. }
  rewrite Hmod.
  destruct (r =? 0) eqn:Er.
  - apply Nat.eqb_eq in Er; subst r. rewrite Nat.add_0_r, !andb_true_r.
    destruct (8 <? n) eqn:E8.
    + apply Nat.ltb_lt in E8; apply Nat.ltb_lt; lia.
    + apply Nat.ltb_ge in E8; apply Nat.ltb_ge; lia.
  - now rewrite !andb_false_r.
Qed.

Lemma samples_in_block (n : nat) :
  length (filter is_sample (seq (n * 25) 25)) = if 8 <? n then 1 else 0.
Proof.
  assert (H : forall r, r < 25 ->
            is_sample (n * 25 + r) = (8 <? n) && (r =? 0))
    by (intros; now apply is_sample_in_block).
  assert (Hseq : seq (n * 25) 25 = map (fun r => n * 25 + r) (seq 0 25)).
  { generalize (n * 25) as a; intro a. generalize 25 as len.
    induction len as [|len IHlen]; [reflexivity|].
    now rewrite !seq_S, map_app, IHlen. }
  rewrite Hseq.
  assert (Hfil : filter is_sample (map (fun r => n * 25 + r) (seq 0 25))
                 = map (fun r => n * 25 + r)
                       (filter (fun r => (8 <? n) && (r =? 0)) (seq 0 25))).
  { generalize (seq 0 25) (fun r (Hr : In r (seq 0 25)) =>
                             H r (proj2 (proj1 (in_seq 25 0 r) Hr))).
    intros l; induction l as [|r l IH]; intro Hl; [reflexivity|].
    cbn [map filter]. rewrite (Hl r (or_introl eq_refl)).
    rewrite IH by (intros; apply Hl; now right).
    now destruct ((8 <? n) && (r =? 0)). }
  rewrite Hfil, length_map.
  destruct (8 <? n); reflexivity.
Qed.

Lemma samples_below (n : nat) :
  length (filter is_sample (seq 0 (n * 25))) = n - 9.
Proof.
  induction n as [|n IH]; [reflexivity|].
  replace (S n * 25) with (n * 25 + 25) by lia.
  rewrite seq_app, filter_app, length_app, IH. cbn [Nat.add].
  rewrite samples_in_block.
  destruct (8 <? n) eqn:E; [apply Nat.ltb_lt in E|apply Nat.ltb_ge in E]; lia.
Qed.

(** As long as fewer than [n] points are due, the loop does not break
    and collects one point for every sample index. *)
Lemma halvorsen_loop_count (n : nat) indices s :
  length (hpts s) + length (filter is_sample indices) < n ->
  exists s',
    for_range indices (fun i s => Normal (halvorsen_body n i s)) s
    = Normal s'
    /\ length (hpts s')
       = length (hpts s) + length (filter is_sample indices).
Proof.
  revert s; induction indices as [|i rest IH]; intros s Hlt.
  - exists s; split; [reflexivity|cbn; lia].
  - cbn [for_range bind filter] in *.
    rewrite halvorsen_body_flag.
    pose proof (halvorsen_body_pts n i s) as Hpts.
    fold (is_sample i) in Hpts.
    set (s1 := fst (halvorsen_body n i s)) in *.
    assert (Hlen : length (hpts s1)
                   = length (hpts s) + (if is_sample i then 1 else 0)).
    { rewrite Hpts; destruct (is_sample i);
        rewrite ?length_app; cbn [length]; lia. }
    assert (Hlt1 : length (hpts s1) + length (filter is_sample rest) < n).
    { rewrite Hlen. destruct (is_sample i); cbn [length] in Hlt; lia. }
    destruct (n <=? length (hpts s1)) eqn:Hbreak;
      [apply Nat.leb_le in Hbreak; lia|].
    cbn [snd fst].
    destruct (IH s1 Hlt1) as (s' & Hs' & Hcount).
    exists s'; split; [exact Hs'|].
    rewrite Hcount, Hlen. destruct (is_sample i); cbn [length]; lia.
Qed.

(** The padding loop appends copies of points already collected. *)
Lemma halvorsen_pad_appends (rnd : RandomSource) :
  draws_in_range rnd ->
  forall fuel n k pts,
    pts <> [] -> length pts <= n -> n - length pts <= fuel ->
    exists extras,
      halvorsen_pad fuel n rnd k pts = Normal (pts ++ extras)
      /\ length extras = n - length pts
      /\ incl extras pts.
Proof.
  intros Hrnd; induction fuel as [|fuel IH]; intros n k pts Hne Hle Hfuel.
  - exists []; cbn [halvorsen_pad].
    destruct (length pts <? n) eqn:Hlt; [apply Nat.ltb_lt in Hlt; lia|].
    rewrite app_nil_r; split; [reflexivity|].
    split; [cbn; lia|intros q []].
  - cbn [halvorsen_pad]. destruct (length pts <? n) eqn:Hlt.
    + apply Nat.ltb_lt in Hlt.
      assert (Hpos : 0 < length pts)
        by (destruct pts; [congruence|cbn; lia]).
      destruct (Hrnd k (length pts) Hpos) as (j & Hj & Hjlt).
      rewrite Hj.
      destruct (nth_error pts j) as [p|] eqn:Hp;
        [|apply nth_error_None in Hp; lia].
      destruct (IH n (S k) (pts ++ [p])) as (extras & Hr & Hl & Hincl).
      * intro Hnil; apply app_eq_nil in Hnil; destruct Hnil; discriminate.
      * rewrite length_app; cbn; lia.
      * rewrite length_app; cbn; lia.
      * exists (p :: extras). rewrite Hr, <- app_assoc; cbn [app].
        split; [reflexivity|].
        rewrite length_app in Hl; cbn [length] in *.
        split; [lia|].
        intros q [<-|Hq]; [eapply nth_error_In; eassumption|].
        apply Hincl in Hq. apply in_app_or in Hq.
        destruct Hq as [Hq|[<-|[]]]; [exact Hq|].
        eapply nth_error_In; eassumption.
    + apply Nat.ltb_ge in Hlt.
      exists []; rewrite app_nil_r; split; [reflexivity|].
      split; [cbn; lia|intros q []].
Qed.

(** For [n >= 10] the loop collects [n - 9] points, whatever
    [Math.random] returns, and the padding loop appends 9 copies. *)
Lemma halvorsen_shape (n : nat) :
  10 <= n ->
  exists collected,
    length collected = n - 9
    /\ collected <> []
    /\ forall rnd, draws_in_range rnd ->
         exists extras,
           length extras = 9
           /\ incl extras collected
           /\ halvorsen n rnd
              = Normal (normalise (collected ++ extras) (of_nat 60)).
Proof.
  intro Hn.
  destruct (@halvorsen_loop_count n (seq 0 (n * 25))
              (mkHalvorsen (dec 1 1) (of_nat 0) (of_nat 0) []))
    as (s' & Hs' & Hcount).
  { rewrite samples_below; cbn [hpts length]; lia. }
  rewrite samples_below in Hcount; cbn [hpts length Nat.add] in Hcount.
  exists (hpts s'). split; [exact Hcount|].
  assert (Hne : hpts s' <> [])
    by (intro E; rewrite E in Hcount; cbn in Hcount; lia).
  split; [exact Hne|].
  intros rnd Hrnd.
  destruct (halvorsen_pad_appends Hrnd (fuel := n) (n := n) 0 Hne)
    as (extras & Hpad & Hlen & Hincl); [lia|lia|].
  exists extras. split; [lia|]. split; [exact Hincl|].
  unfold halvorsen, for_loop. rewrite Hs'; cbn [bind].
  rewrite Hpad; reflexivity.
Qed.

End GeneratorShapes.

(** ** More on the Normalizer in exact arithmetic *)

Module ExactShape.
Import ExactBox ExactNormalise.
Local Open Scope R_scope.

(** The result is centred on the origin. *)
Lemma centre_of_result (pts : list (@THREE.Vector3 Exact)) (s : R) :
  pts <> [] -> 0 <= s ->
  THREE.getCenter (THREE.setFromPoints (normalise pts s)) = THREE.zero3.
Proof.
  intros Hne Hs.
  destruct (setFromPoints_box Hne) as (lo & hi & E & Hle & _).
  destruct (or_default_extent (spread_nonneg Hle)) as (Hpos & _).
  rewrite (normalise_box pts s E Hle).
  set (k := s / or_default (N:=Exact) (spread lo hi) (of_nat 1)).
  assert (Hk : 0 <= k) by (apply Rle_mult_inv_pos; lra).
  rewrite setFromPoints_recentre by exact Hk. rewrite E; cbn [box_map].
  rewrite getCenter_box by (now apply le3_recentre).
  apply vec_eq; vec_simpl; cbn [INR]; field.
Qed.

(** Every coordinate of the result is within half the size of the
    origin. *)
Lemma result_within_half_size (pts : list (@THREE.Vector3 Exact)) (s : R) :
  pts <> [] -> 0 <= s ->
  forall q, In q (normalise pts s) ->
    - (s / 2) <= THREE.x q <= s / 2
    /\ - (s / 2) <= THREE.y q <= s / 2
    /\ - (s / 2) <= THREE.z q <= s / 2.
Proof.
  intros Hne Hs q Hq.
  destruct (setFromPoints_box Hne) as (lo & hi & E & Hle & Hin).
  pose proof (spread_nonneg Hle) as Hnn.
  destruct (or_default_extent Hnn) as (Hpos & Hm & Hm0).
  rewrite (normalise_box pts s E Hle) in Hq.
  apply in_map_iff in Hq; destruct Hq as (p & <- & Hp).
  destruct (Hin p Hp) as ((Hx1 & Hy1 & Hz1) & (Hx2 & Hy2 & Hz2)).
  set (m := or_default (N:=Exact) (spread lo hi) (of_nat 1)) in *.
  assert (Hsx : THREE.x hi - THREE.x lo <= spread lo hi).
  { unfold spread. eapply Rle_trans; [|apply Rmax_l]. apply Rmax_l. }
  assert (Hsy : THREE.y hi - THREE.y lo <= spread lo hi).
  { unfold spread. eapply Rle_trans; [|apply Rmax_l]. apply Rmax_r. }
  assert (Hsz : THREE.z hi - THREE.z lo <= spread lo hi)
    by (unfold spread; apply Rmax_r).
  assert (Hem : spread lo hi <= m).
  { destruct (Req_dec_T (spread lo hi) 0) as [E0|E0].
    - rewrite E0; lra.
    - rewrite (Hm E0); lra. }
  set (k := s / m).
  assert (Hk : 0 <= k) by (apply Rle_mult_inv_pos; lra).
  assert (Hkm : k * m = s) by (unfold k; field; lra).
  vec_simpl; cbn [THREE.x THREE.y THREE.z].
  fold m; fold k.
  repeat split; nra.
Qed.

(** Translating the input and scaling it by a positive factor does not
    change the result. *)
Lemma translation_scale_invariance (pts : list (@THREE.Vector3 Exact))
  (b : @THREE.Vector3 Exact) (a s : R) :
  0 < a ->
  normalise (map (recentre (N:=Exact) b a) pts) s = normalise pts s.
Proof.
  intro Ha.
  destruct pts as [|p0 rest] eqn:Epts; [reflexivity|].
  rewrite <- Epts.
  assert (Hne : pts <> []) by (rewrite Epts; discriminate).
  clear Epts.
  destruct (setFromPoints_box Hne) as (lo & hi & E & Hle & Hin).
  pose proof (spread_nonneg Hle) as Hnn.
  destruct (or_default_extent Hnn) as (Hpos & Hm & Hm0).
  assert (Ha0 : 0 <= a) by lra.
  assert (E' : THREE.setFromPoints (map (recentre (N:=Exact) b a) pts)
               = THREE.Box (recentre (N:=Exact) b a lo)
                           (recentre (N:=Exact) b a hi)).
  { rewrite setFromPoints_recentre by exact Ha0. rewrite E; reflexivity. }
  pose proof (le3_recentre b Ha0 Hle) as Hle'.
  rewrite (normalise_box _ s E' Hle'), (normalise_box pts s E Hle), map_map.
  apply map_ext_in; intros p Hp.
  rewrite (spread_recentre b lo hi Ha0).
  destruct (Req_dec_T (spread lo hi) 0) as [E0|E0].
  - pose proof (spread_zero Hle E0) as <-.
    destruct (Hin p Hp) as ((? & ? & ?) & (? & ? & ?)).
    rewrite E0, Rmult_0_l.
    apply vec_eq; vec_simpl; cbn;
      replace (THREE.x p) with (THREE.x lo) by lra;
      replace (THREE.y p) with (THREE.y lo) by lra;
      replace (THREE.z p) with (THREE.z lo) by lra; lra.
  - assert (Hea : spread lo hi * a <> 0) by nra.
    assert (Hea0 : 0 <= spread lo hi * a) by nra.
    destruct (or_default_extent Hea0) as (_ & Hm' & _).
    rewrite (Hm' Hea), (Hm E0).
    apply vec_eq; vec_simpl; field; lra.
Qed.

(** Adding copies of its points to a point set changes neither its
    bounding box nor what its points are mapped to. *)
Lemma expand_by_contained (b : @THREE.Box3 Exact) p :
  contains b p -> THREE.expandByPoint b p = b.
Proof.
  destruct b as [|lo hi]; cbn [contains THREE.expandByPoint]; [intros []|].
  intros ((? & ? & ?) & (? & ? & ?)); vec_simpl.
  f_equal; apply vec_eq; vec_simpl;
    solve [apply Rmin_left; assumption | apply Rmax_left; assumption].
Qed.

Lemma setFromPoints_with_copies (pts extras : list (@THREE.Vector3 Exact)) :
  incl extras pts ->
  THREE.setFromPoints (pts ++ extras) = THREE.setFromPoints pts.
Proof.
  intro Hincl; unfold THREE.setFromPoints; rewrite fold_left_app.
  destruct (fold_expand_props pts (@THREE.EmptyBox Exact) I)
    as (_ & _ & Hin).
  fold (THREE.setFromPoints pts) in *.
  set (box := THREE.setFromPoints pts) in *.
  assert (Hc : forall q, In q extras -> contains box q) by auto.
  clear Hincl Hin.
  induction extras as [|e extras IH]; [reflexivity|].
  cbn [fold_left]. rewrite expand_by_contained by (apply Hc; now left).
  apply IH; intros q Hq; apply Hc; now right.
Qed.

Lemma normalise_with_copies (pts extras : list (@THREE.Vector3 Exact)) s :
  pts <> [] -> incl extras pts ->
  firstn (length pts) (normalise (pts ++ extras) s) = normalise pts s
  /\ incl (normalise (pts ++ extras) s) (normalise pts s).
Proof.
  intros Hne Hincl.
  destruct (setFromPoints_box Hne) as (lo & hi & E & Hle & _).
  assert (E' : THREE.setFromPoints (pts ++ extras) = THREE.Box lo hi)
    by (now rewrite setFromPoints_with_copies).
  rewrite (normalise_box _ s E' Hle), (normalise_box pts s E Hle).
  rewrite map_app. split.
  - rewrite <- (length_map (recentre (N:=Exact)
                   (THREE.multiplyScalar (THREE.addVectors lo hi) (1 / 2))
                   (s / or_default (N:=Exact) (spread lo hi) (of_nat 1))) pts)
      at 1.
    rewrite firstn_app, Nat.sub_diag, firstn_all; cbn [firstn].
    apply app_nil_r.
  - intros q Hq; apply in_app_or in Hq; destruct Hq as [Hq|Hq];
      [exact Hq|].
    apply in_map_iff in Hq; destruct Hq as (p & <- & Hp).
    apply in_map, Hincl, Hp.
Qed.

End ExactShape.

(** ** More on the controller in exact arithmetic *)

Module ExactMorph.
Import ExactNormalise ExactController.
Local Open Scope R_scope.

(** Below 1 the eased value is the cubic ease-out. *)
Lemma ease_below_one (p : R) :
  p < 1 -> @ease Exact p = 1 - (1 - p) ^ 3.
Proof.
  intro Hp; unfold ease; exact_arith.
  change (INR 1) with 1.
  rewrite geb_false by exact Hp.
  rewrite Rpower_pow by lra. reflexivity.
Qed.

Lemma ease_from_one (p : R) : 1 <= p -> @ease Exact p = 1.
Proof.
  intro Hp; unfold ease; exact_arith. change (INR 1) with 1.
  now rewrite geb_true.
Qed.

Lemma cube_monotone (a b : R) : 0 <= a <= b -> a ^ 3 <= b ^ 3.
Proof.
  intros [Ha Hab]. cbn [pow]. rewrite !Rmult_1_r.
  assert (a * a <= b * b) by nra.
  assert (0 <= a * a) by nra.
  nra.
Qed.

Lemma ease_range (p : R) : 0 <= p -> 0 <= @ease Exact p <= 1.
Proof.
  intro Hp. destruct (Rlt_le_dec p 1) as [Hlt|Hge].
  - rewrite ease_below_one by exact Hlt.
    pose proof (cube_monotone (a := 1 - p) (b := 1) ltac:(lra)) as Hc.
    pose proof (cube_monotone (a := 0) (b := 1 - p) ltac:(lra)) as H0.
    cbn [pow] in *; lra.
  - rewrite ease_from_one by exact Hge; lra.
Qed.

Lemma ease_monotone (p q : R) : p <= q -> @ease Exact p <= @ease Exact q.
Proof.
  intro Hpq. destruct (Rlt_le_dec q 1) as [Hq|Hq].
  - rewrite !ease_below_one by lra.
    pose proof (cube_monotone (a := 1 - q) (b := 1 - p) ltac:(lra)); lra.
  - rewrite (ease_from_one Hq).
    destruct (Rlt_le_dec p 1) as [Hp|Hp].
    + rewrite ease_below_one by exact Hp.
      pose proof (cube_monotone (a := 0) (b := 1 - p) ltac:(lra)) as H0.
      cbn [pow] in *; lra.
    + rewrite ease_from_one by exact Hp; lra.
Qed.

(** An interpolated value with an eased value in [0, 1] lies between
    the two ends. *)
Lemma lerp_between (from to : Float32Array (N:=Exact)) (e : R) (i : nat) :
  0 <= e <= 1 -> (i < length from)%nat -> (i < length to)%nat ->
  between (nth i from 0) (nth i to 0) (lerp from to e i).
Proof.
  intros He Hf Ht; unfold lerp, load, between.
  destruct (nth_error from i) as [f|] eqn:Ef;
    [|apply nth_error_None in Ef; lia].
  destruct (nth_error to i) as [t|] eqn:Et;
    [|apply nth_error_None in Et; lia].
  assert (Hf' : nth i from 0 = f) by (now apply nth_error_nth).
  assert (Ht' : nth i to 0 = t) by (now apply nth_error_nth).
  rewrite Hf', Ht'.
  cbn [to_number]; exact_arith.
  destruct (Rle_dec f t); [left|right]; nra.
Qed.

End ExactMorph.

(** ** A transition from its first tick to its last *)

Section Course.
Context {N : Number}.
Local Open Scope js_scope.

(** A transition whose progress first reaches 1 at tick [K + 1] ends at
    that tick, with the interpolation at an eased value of 1 in the
    particle array and [next] as the current pattern. *)
Lemma transition_course (K : nat) frames st :
  isTrans st = true ->
  (forall j, (j < K)%nat ->
             (progress_after (S j) (prog st) >=? of_nat 1) = false) ->
  (progress_after (S K) (prog st) >=? of_nat 1) = true ->
  isTrans (ticks (S K) frames st) = false
  /\ currentPattern (ticks (S K) frames st) = next (userData st)
  /\ particleArr (ticks (S K) frames st)
     = map (fun i => Math_fround
                       (lerp (from (userData st)) (to (userData st))
                             (of_nat 1) i))
           (seq 0 (length (particleArr st))).
Proof.
  intros Htrans Hrun Hfin.
  destruct (@ticks_running N K frames st Htrans Hrun)
    as (Ht & Hp & Hud & _ & Hlen).
  rewrite ticks_last.
  destruct (useFrame_final (fst (frames K)) (snd (frames K))
              (ticks K frames st) Ht) as (_ & Ht' & Hc' & _ & Ha').
  - rewrite Hp, <- progress_after_S; exact Hfin.
  - rewrite Hud, Hlen in *. auto.
Qed.

End Course.

(* ================================================================== *)
(** * Part V.  Further properties, stated                              *)
(* ================================================================== *)

(** ** The component's state *)

(** Property X1.  The arrays keep their lengths: in every reachable
    state the particle array has [PARTICLE_COUNT * 3] coordinates, the
    sparkle array [SPARK_COUNT * 3], and [from] and [to] are either both
    empty or both as long as the particle array, so the interpolation
    loop never loads outside one of them and inside the other. *)
Theorem arrays_keep_their_lengths :
  forall (N : Number) (knot : list THREE.Vector3) (st : State),
    reachable knot st -> well_sized st.
Proof. intros N knot st; apply well_sized_reachable. Qed.

Lemma arrays_keep_their_lengths_witness :
  reachable (N:=Exact) [] initial /\ well_sized (N:=Exact) initial.
Proof.
  split; [apply reachable_initial|].
  exact (@arrays_keep_their_lengths Exact [] initial (reachable_initial [])).
Defined.

(** Property X2.  The pattern indices stay inside [PATTERNS]: in every
    reachable state [currentPattern] and [userData.next] are below 4, so
    [PATTERNS[next]] is always one of the four generators. *)
Theorem pattern_indices_in_range :
  forall (N : Number) (knot : list THREE.Vector3) (st : State),
    reachable knot st ->
    currentPattern st < length (PATTERNS knot)
    /\ next (userData st) < length (PATTERNS knot).
Proof. intros N knot st; apply pattern_index_reachable. Qed.

Lemma pattern_indices_in_range_witness :
  reachable (N:=Exact) [] initial
  /\ currentPattern (initial (N:=Exact)) < 4.
Proof.
  split; [apply reachable_initial|].
  exact (proj1 (@pattern_indices_in_range Exact [] initial
                  (reachable_initial []))).
Defined.

(** Property X3.  The particle cloud and the sparkle cloud turn
    together: in every reachable state their rotations are equal, and a
    tick adds [delta * 0.02] to the x rotation and [delta * 0.05] to the
    y rotation of each, whether or not a transition is active. *)
Theorem clouds_rotate_together :
  forall (N : Number) (knot : list THREE.Vector3) (st : State)
         (t delta : num),
    reachable knot st ->
    particles_rotation st = sparkles_rotation st
    /\ particles_rotation (useFrame t delta st)
       = mkRotation (rot_x (particles_rotation st) + delta * dec 2 2)%js
                    (rot_y (particles_rotation st) + delta * dec 5 2)%js
    /\ sparkles_rotation (useFrame t delta st)
       = particles_rotation (useFrame t delta st).
Proof.
  intros N knot st t delta Hst.
  pose proof (rotations_reachable Hst) as Heq.
  pose proof (rotations_reachable (reachable_step (Frame t delta) Hst))
    as Heq'.
  cbn [step] in Heq'.
  split; [exact Heq|]. split; [|now symmetry].
  unfold useFrame; destruct (isTrans st); reflexivity.
Qed.

Lemma clouds_rotate_together_witness :
  reachable (N:=Exact) [] initial
  /\ sparkles_rotation (useFrame (N:=Exact) 0%R 1%R initial)
     = particles_rotation (useFrame (N:=Exact) 0%R 1%R initial).
Proof.
  split; [apply reachable_initial|].
  exact (proj2 (proj2 (@clouds_rotate_together Exact [] initial 0%R 1%R
                         (reachable_initial [])))).
Defined.

(** ** The copy loops, the mount effect and the trigger *)

(** Property X4.  The loop that copies a generator's result into an
    array ([applyPattern], [triggerMorph]) overwrites all of an array of
    [PARTICLE_COUNT * 3] coordinates: coordinate [3j + c] becomes the
    rounded component [c] of point [j] of the result, or of the zero
    vector when the result has no point [j]; points of the result from
    index [PARTICLE_COUNT] on are not read. *)
Theorem copy_loop_overwrites :
  forall (N : Number) (pts : list THREE.Vector3) (a : Float32Array),
    length a = PARTICLE_COUNT * 3 ->
    for_loop PARTICLE_COUNT (plain (fill_to_body pts)) a
    = Normal (stored (positions (points_read pts)))
    /\ (length pts = PARTICLE_COUNT -> points_read pts = pts).
Proof.
  intros N pts a Ha. split.
  - rewrite for_loop_plain. f_equal. now apply copy_loop.
  - apply points_read_all.
Qed.

Lemma copy_loop_overwrites_witness :
  length (new_Float32Array (N:=Exact) (PARTICLE_COUNT * 3))
  = PARTICLE_COUNT * 3
  /\ for_loop PARTICLE_COUNT (plain (fill_to_body Samples.one_vertex))
       (new_Float32Array (N:=Exact) (PARTICLE_COUNT * 3))
     = Normal (stored (positions (points_read Samples.one_vertex))).
Proof.
  assert (H : length (new_Float32Array (N:=Exact) (PARTICLE_COUNT * 3))
              = PARTICLE_COUNT * 3) by apply repeat_length.
  split; [exact H|].
  exact (proj1 (@copy_loop_overwrites Exact Samples.one_vertex _ H)).
Defined.

(** Property X5.  The mount effect shows pattern 0: with a knot geometry
    that has a vertex, [applyPattern(0)] on the freshly rendered
    component returns normally, the particle array holds the coordinates
    of the points [torusKnot(PARTICLE_COUNT)] returned and the sparkle
    array the first [SPARK_COUNT * 3] of them. *)
Theorem mount_shows_first_pattern :
  forall (N : Number) (knot : list THREE.Vector3) (rnd : RandomSource),
    knot <> [] ->
    exists pts,
      torusKnot knot PARTICLE_COUNT = Normal pts
      /\ length pts = PARTICLE_COUNT
      /\ snd (applyPattern knot (currentPattern initial) rnd initial)
         = Normal tt
      /\ particleArr (step knot (Mount rnd) initial)
         = stored (positions pts)
      /\ sparkleArr (step knot (Mount rnd) initial)
         = firstn (SPARK_COUNT * 3) (stored (positions pts)).
Proof.
  intros N knot rnd Hknot.
  destruct (torusKnot_count PARTICLE_COUNT Hknot) as (pts & Hpts & Hlen).
  exists pts. split; [exact Hpts|]. split; [exact Hlen|].
  assert (Hcall : call_pattern knot 0 PARTICLE_COUNT rnd = Normal pts)
    by exact Hpts.
  destruct (applyPattern_returns knot 0 rnd initial Hcall)
    as (Hok & Harr); [apply repeat_length|].
  rewrite (points_read_all pts Hlen) in Harr.
  split; [exact Hok|]. cbn [step].
  change (currentPattern initial) with 0.
  split; [exact Harr|].
  pose proof (mirrored_applyPattern knot 0 rnd (mirrored_initial (N:=N)))
    as Hm.
  unfold mirrored in Hm. now rewrite Hm, Harr.
Qed.

Lemma mount_shows_first_pattern_witness :
  Samples.one_vertex <> []
  /\ exists pts,
       torusKnot Samples.one_vertex PARTICLE_COUNT = Normal pts
       /\ particleArr (step Samples.one_vertex (Mount Samples.draw_zero)
                         initial)
          = stored (positions pts).
Proof.
  assert (H : Samples.one_vertex <> []) by discriminate.
  split; [exact H|].
  destruct (@mount_shows_first_pattern Exact Samples.one_vertex
              Samples.draw_zero H) as (pts & Hp & _ & _ & Ha & _).
  exists pts; split; assumption.
Defined.

(** Property X6.  A trigger received while idle never throws, given a
    knot geometry with a vertex and draws in range: it returns normally,
    starts a transition at progress 0 towards pattern
    [(currentPattern + 1) % 4], keeps a snapshot of the particle array
    as [from] and the coordinates of the [PARTICLE_COUNT] points of the
    generator as [to], and leaves the particle array as it was. *)
Theorem trigger_starts_next_pattern :
  forall (N : Number) (knot : list THREE.Vector3) (rnd : RandomSource)
         (st : State),
    knot <> [] -> draws_in_range rnd -> isTrans st = false ->
    exists pts,
      call_pattern knot ((currentPattern st + 1) mod 4) PARTICLE_COUNT rnd
      = Normal pts
      /\ length pts = PARTICLE_COUNT
      /\ snd (triggerMorph knot rnd st) = Normal tt
      /\ isTrans (fst (triggerMorph knot rnd st)) = true
      /\ prog (fst (triggerMorph knot rnd st)) = of_nat 0
      /\ from (userData (fst (triggerMorph knot rnd st))) = particleArr st
      /\ to (userData (fst (triggerMorph knot rnd st)))
         = stored (positions pts)
      /\ next (userData (fst (triggerMorph knot rnd st)))
         = (currentPattern st + 1) mod 4
      /\ particleArr (fst (triggerMorph knot rnd st)) = particleArr st.
Proof.
  intros N knot rnd st Hknot Hrnd Hidle.
  destruct (call_pattern_returns (i := (currentPattern st + 1) mod 4)
              (n := PARTICLE_COUNT) Hknot Hrnd)
    as (pts & Hcall & Hlen);
    [apply Nat.mod_upper_bound; lia|exact PARTICLE_COUNT_large|].
  exists pts. split; [exact Hcall|]. split; [exact Hlen|].
  destruct (triggerMorph_returns knot rnd st Hidle Hcall)
    as (H1 & H2 & H3 & H4 & H5 & H6).
  rewrite (points_read_all pts Hlen) in H5.
  destruct (triggerMorph_arrays knot rnd st) as (Hpa & _).
  repeat (split; [assumption|]). exact Hpa.
Qed.

Lemma trigger_starts_next_pattern_witness :
  Samples.one_vertex <> [] /\ draws_in_range Samples.draw_zero
  /\ isTrans (initial (N:=Exact)) = false
  /\ snd (triggerMorph Samples.one_vertex Samples.draw_zero initial)
     = Normal tt.
Proof.
  assert (Hk : Samples.one_vertex <> []) by discriminate.
  assert (Hr : draws_in_range Samples.draw_zero).
  { apply ExactController.draws_in_unit_interval.
    intro k; unfold Samples.draw_zero; lra. }
  assert (Hi : isTrans (initial (N:=Exact)) = false) by reflexivity.
  split; [exact Hk|]. split; [exact Hr|]. split; [exact Hi|].
  destruct (@trigger_starts_next_pattern Exact Samples.one_vertex
              Samples.draw_zero initial Hk Hr Hi)
    as (pts & _ & _ & Hok & _).
  exact Hok.
Defined.

(** ** The generators *)

(** Property X7.  [torusKnot] cycles through the vertices of the knot
    geometry with wrap-around: for a geometry with at least one vertex,
    point [i] of the set it normalises to size 50 is vertex
    [i % points.length], so the result repeats with the period of the
    vertex count. *)
Theorem torusKnot_cycles_through_vertices :
  forall (N : Number) (knot : list THREE.Vector3) (n : nat),
    knot <> [] ->
    torusKnot knot n
    = Normal (normalise
                (map (fun i => nth (i mod length knot) knot THREE.zero3)
                     (seq 0 n))
                (of_nat 50)).
Proof.
  intros N knot n Hknot. now apply torusKnot_cycles_through_vertices_aux.
Qed.

Lemma torusKnot_cycles_through_vertices_witness :
  Samples.one_vertex <> []
  /\ torusKnot Samples.one_vertex 3
     = Normal (normalise
                 (map (fun i => nth (i mod length Samples.one_vertex)
                                    Samples.one_vertex THREE.zero3)
                      (seq 0 3))
                 (of_nat 50)).
Proof.
  assert (H : Samples.one_vertex <> []) by discriminate.
  split; [exact H|].
  exact (@torusKnot_cycles_through_vertices Exact Samples.one_vertex 3 H).
Defined.

(** Property X8.  [torusKnot] throws exactly when it is asked for at
    least one point of a geometry without vertices: [i % 0] is NaN,
    [points[NaN]] is [undefined], and [clone] is called on it. *)
Theorem torusKnot_throws_iff :
  forall (N : Number) (knot : list THREE.Vector3) (n : nat),
    torusKnot knot n = Throw TypeError <-> knot = [] /\ 1 <= n.
Proof.
  intros N knot n; split.
  - intro Hthrow. destruct knot as [|v knot].
    + split; [reflexivity|].
      destruct n as [|n]; [discriminate Hthrow|lia].
    + rewrite torusKnot_cycles_through_vertices_aux in Hthrow
        by discriminate.
      discriminate Hthrow.
  - intros [-> Hn]. now apply torusKnot_no_vertices.
Qed.

(** Property X9.  [Math.random] only chooses the last 9 points of
    [halvorsen]: for [n >= 10] the integration loop collects the same
    [n - 9] points whatever the random source is, and the padding loop
    appends exactly 9 points, each a copy of a collected one, before
    the set is normalised to size 60. *)
Theorem halvorsen_pads_nine_copies :
  forall (N : Number) (n : nat),
    10 <= n ->
    exists collected,
      length collected = n - 9
      /\ forall rnd, draws_in_range rnd ->
           exists extras,
             length extras = 9
             /\ incl extras collected
             /\ halvorsen n rnd
                = Normal (normalise (collected ++ extras) (of_nat 60)).
Proof.
  intros N n Hn.
  destruct (halvorsen_shape Hn) as (collected & Hlen & _ & H).
  exists collected; split; assumption.
Qed.

Lemma halvorsen_pads_nine_copies_witness :
  10 <= 12
  /\ exists collected : list (@THREE.Vector3 Exact), length collected = 12 - 9.
Proof.
  assert (H : 10 <= 12) by lia.
  split; [exact H|].
  destruct (@halvorsen_pads_nine_copies Exact 12 H) as (collected & Hl & _).
  exists collected; exact Hl.
Defined.

(** Property X10.  In exact arithmetic the first [n - 9] points
    [halvorsen] returns do not depend on [Math.random]: for [n >= 10]
    there is one list of [n - 9] points that begins the result for every
    random source drawing from [0, 1), and every point of the result,
    the 9 padded ones included, is one of them.  The padded copies lie
    inside the bounding box, so they do not move the other points. *)
Theorem halvorsen_first_points_fixed :
  forall n : nat,
    10 <= n ->
    exists fixed : list (@THREE.Vector3 Exact),
      length fixed = n - 9
      /\ forall rnd : RandomSource (N:=Exact),
           (forall k, (0 <= rnd k < 1)%R) ->
           exists out,
             halvorsen n rnd = Normal out
             /\ length out = n
             /\ firstn (n - 9) out = fixed
             /\ incl out fixed.
Proof.
  intros n Hn.
  destruct (halvorsen_shape (N:=Exact) Hn) as (collected & Hlen & Hne & H).
  exists (normalise collected (of_nat 60)).
  split; [now rewrite normalise_length|].
  intros rnd Hrnd.
  destruct (H rnd (ExactController.draws_in_unit_interval rnd Hrnd))
    as (extras & Hex & Hincl & Hout).
  eexists; split; [exact Hout|].
  destruct (ExactShape.normalise_with_copies (of_nat 60) Hne Hincl)
    as (Hfirst & Hall).
  split; [rewrite normalise_length, length_app; lia|].
  split; [rewrite <- Hlen; exact Hfirst|exact Hall].
Qed.

Lemma halvorsen_first_points_fixed_witness :
  10 <= 12
  /\ exists fixed : list (@THREE.Vector3 Exact), length fixed = 12 - 9.
Proof.
  assert (H : 10 <= 12) by lia.
  split; [exact H|].
  destruct (halvorsen_first_points_fixed H) as (fixed & Hl & _).
  exists fixed; exact Hl.
Defined.

(** ** The Normalizer in exact arithmetic *)

(** Property X11.  In exact arithmetic, for a non-empty point set and a
    size that is not negative, the result of the Normalizer is centred:
    the centre of its bounding box is the origin. *)
Theorem normalise_centres :
  forall (pts : list (@THREE.Vector3 Exact)) (size : R),
    pts <> [] -> (0 <= size)%R ->
    THREE.getCenter (THREE.setFromPoints (normalise pts size))
    = THREE.zero3.
Proof. intros; now apply ExactShape.centre_of_result. Qed.

Lemma normalise_centres_witness :
  Samples.diagonal <> [] /\ (0 <= 60)%R
  /\ THREE.getCenter (THREE.setFromPoints (normalise Samples.diagonal 60%R))
     = THREE.zero3.
Proof.
  assert (Hne : Samples.diagonal <> []) by discriminate.
  assert (Hs : (0 <= 60)%R) by lra.
  split; [exact Hne|]. split; [exact Hs|].
  exact (normalise_centres Hne Hs).
Defined.

(** Property X12.  In exact arithmetic, for a non-empty point set and a
    size that is not negative, every coordinate of every point of the
    result lies between [-size/2] and [size/2]: the result fits the cube
    of side [size] around the origin. *)
Theorem normalise_fits_the_cube :
  forall (pts : list (@THREE.Vector3 Exact)) (size : R),
    pts <> [] -> (0 <= size)%R ->
    forall q, In q (normalise pts size) ->
      (- (size / 2) <= THREE.x q <= size / 2
       /\ - (size / 2) <= THREE.y q <= size / 2
       /\ - (size / 2) <= THREE.z q <= size / 2)%R.
Proof. intros pts size Hne Hs; now apply ExactShape.result_within_half_size. Qed.

Lemma normalise_fits_the_cube_witness :
  Samples.diagonal <> [] /\ (0 <= 60)%R
  /\ forall q, In q (normalise Samples.diagonal 60%R) ->
       (- (60 / 2) <= THREE.x q <= 60 / 2)%R.
Proof.
  assert (Hne : Samples.diagonal <> []) by discriminate.
  assert (Hs : (0 <= 60)%R) by lra.
  split; [exact Hne|]. split; [exact Hs|].
  intros q Hq. exact (proj1 (normalise_fits_the_cube Hne Hs q Hq)).
Defined.

(** Property X13.  In exact arithmetic the result of the Normalizer does
    not depend on where the input is or how large it is: moving every
    point by the same vector and scaling by the same positive factor
    ([p -> (p - b) * a] with [0 < a]) gives the same result. *)
Theorem normalise_ignores_offset_and_scale :
  forall (pts : list (@THREE.Vector3 Exact)) (b : @THREE.Vector3 Exact)
         (a size : R),
    (0 < a)%R ->
    normalise (map (recentre (N:=Exact) b a) pts) size
    = normalise pts size.
Proof. intros; now apply ExactShape.translation_scale_invariance. Qed.

Lemma normalise_ignores_offset_and_scale_witness :
  (0 < 2)%R
  /\ normalise (map (recentre (N:=Exact) Samples.offset 2%R)
                    Samples.diagonal) 60%R
     = normalise Samples.diagonal 60%R.
Proof.
  assert (Ha : (0 < 2)%R) by lra.
  split; [exact Ha|].
  exact (@normalise_ignores_offset_and_scale Samples.diagonal
           Samples.offset 2%R 60%R Ha).
Defined.

(** ** The controller in exact arithmetic *)

(** Property X14.  The easing of the tick, in exact arithmetic: below 1
    it is the cubic ease-out [1 - (1 - p)^3], from 1 on it is 1; it is 0
    at 0, never decreases, and stays within [0, 1] for progress that is
    not negative. *)
Theorem ease_is_cubic_ease_out :
  forall p q : R,
    (0 <= p)%R -> (p <= q)%R ->
    ((p < 1 -> @ease Exact p = 1 - (1 - p) ^ 3)
     /\ (1 <= p -> @ease Exact p = 1)
     /\ @ease Exact 0 = 0
     /\ 0 <= @ease Exact p <= @ease Exact q
     /\ @ease Exact q <= 1)%R.
Proof.
  intros p q Hp Hpq.
  split; [apply ExactMorph.ease_below_one|].
  split; [apply ExactMorph.ease_from_one|].
  split; [rewrite ExactMorph.ease_below_one by lra; cbn [pow]; lra|].
  pose proof (ExactMorph.ease_range Hp) as [H0 _].
  pose proof (@ExactMorph.ease_range q ltac:(lra)) as [_ H1].
  pose proof (ExactMorph.ease_monotone Hpq).
  repeat split; assumption.
Qed.

Lemma ease_is_cubic_ease_out_witness :
  (0 <= 1 / 2)%R /\ (1 / 2 <= 3 / 4)%R
  /\ (@ease Exact (1 / 2) <= @ease Exact (3 / 4))%R.
Proof.
  assert (Hp : (0 <= 1 / 2)%R) by lra.
  assert (Hq : (1 / 2 <= 3 / 4)%R) by lra.
  split; [exact Hp|]. split; [exact Hq|].
  exact (proj2 (proj1 (proj2 (proj2 (proj2
           (ease_is_cubic_ease_out Hp Hq)))))).
Defined.

(** Property X15.  In exact arithmetic a tick of an active transition
    whose progress is not negative writes, at every coordinate, a value
    between the coordinate of [from] and the coordinate of [to]: no
    particle leaves the segment between its start and its target. *)
Theorem particles_stay_between_ends :
  forall (st : State (N:=Exact)) (t delta : @num Exact) (i : nat),
    isTrans st = true ->
    (0 <= prog st)%R ->
    length (from (userData st)) = length (particleArr st) ->
    length (to (userData st)) = length (particleArr st) ->
    i < length (particleArr st) ->
    between (nth i (from (userData st)) 0%R)
            (nth i (to (userData st)) 0%R)
            (nth i (particleArr (useFrame (N:=Exact) t delta st)) 0%R).
Proof.
  intros st t delta i Htrans Hprog Hfrom Hto Hi.
  destruct (useFrame_transition t delta st Htrans)
    as (_ & _ & _ & _ & ->).
  set (e := ease _).
  set (f := fun i : nat =>
              @Math_fround Exact
                (lerp (from (userData st)) (to (userData st)) e i)).
  assert (Hnth : nth i (map f (seq 0 (length (particleArr st)))) 0%R = f i).
  { rewrite (nth_indep (map f (seq 0 (length (particleArr st)))) 0%R (f 0))
      by (now rewrite length_map, length_seq).
    rewrite (map_nth f), seq_nth by exact Hi. reflexivity. }
  rewrite Hnth; unfold f; cbn [Math_fround Exact].
  apply ExactMorph.lerp_between; try lia.
  apply ExactMorph.ease_range.
  cbn [add Exact]. rewrite ExactController.morphSpeed_value. lra.
Qed.

Lemma particles_stay_between_ends_witness :
  isTrans Samples.ending = true
  /\ between (nth 0 (from (userData Samples.ending)) 0%R)
             (nth 0 (to (userData Samples.ending)) 0%R)
             (nth 0 (particleArr (useFrame (N:=Exact) 0%R 0%R
                                    Samples.ending)) 0%R).
Proof.
  assert (Ht : isTrans Samples.ending = true) by reflexivity.
  split; [exact Ht|].
  apply (@particles_stay_between_ends Samples.ending 0%R 0%R 0 Ht).
  - unfold Samples.ending; cbn [prog]; lra.
  - reflexivity.
  - reflexivity.
  - unfold Samples.ending; cbn [particleArr].
    rewrite repeat_length. pose proof PARTICLE_COUNT_large; lia.
Defined.

(** Property X16.  One morph towards any pattern, in exact arithmetic:
    from an idle state with a particle array of [PARTICLE_COUNT * 3]
    coordinates, with a knot geometry that has a vertex and draws from
    [0, 1), a trigger followed by 34 ticks leaves the component idle, at
    pattern [(currentPattern + 1) % 4], with the coordinates of the
    points that pattern's generator returned in the particle array. *)
Theorem morph_reaches_next_pattern :
  forall (knot : list (@THREE.Vector3 Exact))
         (rnd : RandomSource (N:=Exact))
         (frames : nat -> @num Exact * @num Exact) (st : State (N:=Exact)),
    knot <> [] ->
    (forall k, (0 <= rnd k < 1)%R) ->
    isTrans st = false ->
    length (particleArr st) = PARTICLE_COUNT * 3 ->
    exists pts,
      call_pattern knot ((currentPattern st + 1) mod 4) PARTICLE_COUNT rnd
      = Normal pts
      /\ isTrans (ticks 34 frames (fst (triggerMorph knot rnd st))) = false
      /\ currentPattern (ticks 34 frames (fst (triggerMorph knot rnd st)))
         = (currentPattern st + 1) mod 4
      /\ particleArr (ticks 34 frames (fst (triggerMorph knot rnd st)))
         = positions pts.
Proof.
  intros knot rnd frames st Hknot Hrnd Hidle Hlen.
  pose proof (ExactController.draws_in_unit_interval rnd Hrnd) as Hdraws.
  destruct (call_pattern_returns (i := (currentPattern st + 1) mod 4)
              (n := PARTICLE_COUNT) Hknot Hdraws)
    as (pts & Hcall & Hcount);
    [apply Nat.mod_upper_bound; lia|exact PARTICLE_COUNT_large|].
  exists pts. split; [exact Hcall|].
  destruct (triggerMorph_returns knot rnd st Hidle Hcall)
    as (_ & Htrans & Hp0 & Hfrom & Hto & Hnext).
  destruct (triggerMorph_arrays knot rnd st) as (Hpa & _).
  rewrite (points_read_all pts Hcount) in Hto.
  set (st1 := fst (triggerMorph knot rnd st)) in *.
  destruct (@transition_course Exact 33 frames st1 Htrans)
    as (Hend & Hcur & Harr).
  - intros j Hj; rewrite Hp0; exact (ExactController.schedule_running Hj).
  - rewrite Hp0; exact ExactController.schedule_finished.
  - split; [exact Hend|]. split; [now rewrite Hcur|].
    rewrite Harr, Hfrom, Hto, Hpa.
    assert (Hstored : stored (N:=Exact) (positions pts) = positions pts)
      by (unfold stored; apply map_id).
    rewrite Hstored.
    assert (Hsame : length (particleArr st) = length (positions pts))
      by (rewrite positions_length, Hcount; exact Hlen).
    rewrite Hsame. apply ExactController.final_write; exact Hsame.
Qed.

Lemma morph_reaches_next_pattern_witness :
  Samples.one_vertex <> []
  /\ isTrans (initial (N:=Exact)) = false
  /\ currentPattern
       (ticks 34 Samples.still_frames
          (fst (triggerMorph Samples.one_vertex Samples.draw_zero initial)))
     = (currentPattern (initial (N:=Exact)) + 1) mod 4.
Proof.
  assert (Hk : Samples.one_vertex <> []) by discriminate.
  assert (Hi : isTrans (initial (N:=Exact)) = false) by reflexivity.
  split; [exact Hk|]. split; [exact Hi|].
  destruct (@morph_reaches_next_pattern Samples.one_vertex Samples.draw_zero
              Samples.still_frames initial Hk)
    as (pts & _ & _ & Hc & _).
  - intro k; unfold Samples.draw_zero; lra.
  - exact Hi.
  - apply repeat_length.
  - exact Hc.
Defined.

(** Property X17.  One morph in the arithmetic the program runs on: for
    every math library, a trigger received while idle followed by 34
    ticks leaves the component idle, with [userData.next] as the current
    pattern, and with the binary32 rounding of
    [from[i] + (to[i] - from[i]) * 1] at every coordinate [i] of the
    particle array; the sparkle array is its prefix whenever it was
    before the trigger. *)
Theorem morph_ends_after_34_ticks :
  forall (M : F64.MathLib) (knot : list THREE.Vector3)
         (rnd : RandomSource (N:=Float64 M))
         (frames : nat -> @num (Float64 M) * @num (Float64 M))
         (st : State (N:=Float64 M)),
    isTrans st = false ->
    isTrans (ticks 34 frames (fst (triggerMorph knot rnd st))) = false
    /\ currentPattern (ticks 34 frames (fst (triggerMorph knot rnd st)))
       = next (userData (fst (triggerMorph knot rnd st)))
    /\ particleArr (ticks 34 frames (fst (triggerMorph knot rnd st)))
       = map (fun i =>
                F64.fround
                  (lerp (N:=Float64 M)
                     (from (userData (fst (triggerMorph knot rnd st))))
                     (to (userData (fst (triggerMorph knot rnd st))))
                     PrimFloat.one i))
             (seq 0 (length (particleArr st)))
    /\ (mirrored st ->
        mirrored (ticks 34 frames (fst (triggerMorph knot rnd st)))).
Proof.
  intros M knot rnd frames st Hidle.
  destruct (triggerMorph_starts knot rnd st Hidle) as (Htrans & Hp0 & _).
  destruct (triggerMorph_arrays knot rnd st) as (Hpa & _).
  pose proof (mirrored_triggerMorph knot rnd (st := st)) as Hmir.
  set (st1 := fst (triggerMorph knot rnd st)) in *.
  destruct (@transition_course (Float64 M) 33 frames st1 Htrans)
    as (Hend & Hcur & Harr).
  - intros j Hj; rewrite Hp0.
    exact (F64Controller.binary64_schedule_running M Hj).
  - rewrite Hp0; exact (F64Controller.binary64_schedule_finished M).
  - split; [exact Hend|]. split; [exact Hcur|].
    split; [rewrite Harr, Hpa; reflexivity|].
    intro Hm. specialize (Hmir Hm).
    clear - Hmir. generalize dependent st1. generalize 34 as k.
    intros k; revert frames.
    induction k as [|k IH]; intros frames st1 Hmir; [exact Hmir|].
    rewrite ticks_S. apply IH. now apply mirrored_useFrame.
Qed.

Lemma morph_ends_after_34_ticks_witness :
  isTrans (initial (N:=Float64 Samples.math)) = false
  /\ isTrans (ticks 34 (Samples.still_frames64 Samples.math)
                (fst (triggerMorph [] (Samples.draw_half64 Samples.math)
                        initial))) = false.
Proof.
  split; [reflexivity|].
  exact (proj1 (@morph_ends_after_34_ticks Samples.math []
                  (Samples.draw_half64 Samples.math)
                  (Samples.still_frames64 Samples.math) initial eq_refl)).
Defined.
